(** * async-data.ts: the memoizing cache wrapper and the chunked batch executor

    A shallow embedding of [asyncCache] and [batchPromiseAllSettled] of
    [src/async-data.ts], with the JavaScript primitives they rest on
    ([JSON.stringify], [Array.prototype.slice], [Promise.allSettled],
    [await], [Map]) written out as far as the two functions use them.

    Conventions of the embedding:
    - JavaScript numbers that the code treats as integers (millisecond
      timestamps of [Date.now()], array indices, the chunk size, the TTL in
      minutes) are [Z];
    - a JavaScript value is modelled by its structure ([jsval]); an object is
      the list of its own enumerable properties in enumeration order; the
      numbers that occur as values are [NaN], the two infinities, [-0] and the
      safe integers ([number]); fractions and larger numbers are not modelled;
    - time is a logical clock in milliseconds; a promise carries the instant
      at which it settles and how it settles; where the host matters (a
      rejection that nobody handles ends a Node process) an instant is a turn
      of the event loop;
    - the [Map] of the cache is a [gmap string entry]. *)

From stdpp Require Import gmap strings list pretty.

Local Open Scope Z_scope.

(** ** JavaScript values and [JSON.stringify] *)

(** [Number.MAX_SAFE_INTEGER], that is 2^53 - 1, and [Number.isSafeInteger]
    on an integer. *)
Definition maxSafeInteger : Z := 9007199254740991.
Definition isSafeInteger (n : Z) : bool := Z.abs n <=? maxSafeInteger.

(** A value of type [number]: [NaN], [Infinity], [-Infinity], [-0], or an
    integer in the safe range (among them [+0], which is [Int 0]). *)
Inductive number : Type :=
  | NaN
  | Infinity
  | NegInfinity
  | NegZero
  | Int (n : Z) (safe : Is_true (isSafeInteger n)).

(** The number with the value [n] when that is a safe integer, [NaN]
    otherwise. *)
Definition safeInteger (n : Z) : number :=
  (if isSafeInteger n as b return (Is_true b -> number) -> number
   then fun int => int I
   else fun _ => NaN) (Int n).

#[local] Unset Elimination Schemes.
Inductive jsval : Type :=
  | JUndefined
  | JNull
  | JBool (b : bool)
  | JNum (n : number)
  | JStr (s : string)
  | JArr (items : list jsval)
  | JObj (props : list (string * jsval)).
#[local] Set Elimination Schemes.

Definition dquote : Ascii.ascii := Ascii.ascii_of_nat 34.
Definition backslash : Ascii.ascii := Ascii.ascii_of_nat 92.

Definition hexDigit (n : nat) : Ascii.ascii :=
  if (n <? 10)%nat then Ascii.ascii_of_nat (48 + n)
  else Ascii.ascii_of_nat (87 + n).

(** [QuoteJSONString] on one code unit: the two-character escapes, the
    [\u00XX] form for the other control characters, the character itself
    otherwise. *)
Definition quoteChar (c : Ascii.ascii) : string :=
  let n := Ascii.nat_of_ascii c in
  if (n =? 34)%nat then String backslash (String dquote EmptyString)
  else if (n =? 92)%nat then String backslash (String backslash EmptyString)
  else if (n =? 8)%nat then String backslash "b"
  else if (n =? 12)%nat then String backslash "f"
  else if (n =? 10)%nat then String backslash "n"
  else if (n =? 13)%nat then String backslash "r"
  else if (n =? 9)%nat then String backslash "t"
  else if (n <? 32)%nat then
    String backslash
      ("u00" +:+
       String (hexDigit (n / 16)) (String (hexDigit (n mod 16)) EmptyString))
  else String c EmptyString.

Fixpoint quoteChars (s : string) : string :=
  match s with
  | EmptyString => EmptyString
  | String c rest => quoteChar c +:+ quoteChars rest
  end.

Definition quoteJSONString (s : string) : string :=
  String dquote (quoteChars s) +:+ String dquote EmptyString.

Fixpoint joinWith (sep : string) (parts : list string) : string :=
  match parts with
  | [] => EmptyString
  | [p] => p
  | p :: rest => p +:+ sep +:+ joinWith sep rest
  end.

(** [Number.isFinite] *)
Definition isFinite (n : number) : bool :=
  match n with
  | NaN | Infinity | NegInfinity => false
  | NegZero | Int _ _ => true
  end.

(** [Number::toString]: [-0] is written [0], a safe integer with its decimal
    digits. *)
Definition numberToString (n : number) : string :=
  match n with
  | NaN => "NaN"
  | Infinity => "Infinity"
  | NegInfinity => "-Infinity"
  | NegZero => "0"
  | Int n _ => pretty n
  end.

(** [SerializeJSONProperty]: [None] stands for the [undefined] that
    [JSON.stringify] yields for a value with no JSON form.  A number that is
    not finite is written [null].  An array element without a JSON form is
    written [null]; an object property without one is left out. *)
Fixpoint serializeJSON (v : jsval) : option string :=
  match v with
  | JUndefined => None
  | JNull => Some "null"
  | JBool true => Some "true"
  | JBool false => Some "false"
  | JNum n => Some (if isFinite n then numberToString n else "null")
  | JStr s => Some (quoteJSONString s)
  | JArr items =>
      Some ("[" +:+
            joinWith "," (map (fun item => default "null" (serializeJSON item)) items)
            +:+ "]")
  | JObj props =>
      Some ("{" +:+
            joinWith ","
              (omap (fun p => match serializeJSON (snd p) with
                              | Some str => Some (quoteJSONString (fst p) +:+ ":" +:+ str)
                              | None => None
                              end) props)
            +:+ "}")
  end.

(** [JSON.stringify(args)] where [args] is the rest-parameter array. *)
Definition JSON_stringify (args : list jsval) : string :=
  default "null" (serializeJSON (JArr args)).

(** [args.length === 0 ? "genericKey" : JSON.stringify(args)] *)
Definition cacheKey (args : list jsval) : string :=
  match args with
  | [] => "genericKey"
  | _ :: _ => JSON_stringify args
  end.

(** ** Structural equality of values

    [deepEqual] of [src/data-manipulation.ts] delegates to Node's
    [assert.deepStrictEqual]; on plain data that comparison is: primitives by
    identity of value ([Object.is], for which [NaN] is [NaN] and [-0] is not
    [0]), arrays element by element, objects by their sets of own enumerable
    properties, compared unordered. *)

(** [Object.is] on two numbers. *)
Definition sameNumber (x y : number) : bool :=
  match x, y with
  | NaN, NaN | Infinity, Infinity | NegInfinity, NegInfinity | NegZero, NegZero => true
  | Int a _, Int b _ => a =? b
  | _, _ => false
  end.

Fixpoint ownProperty (k : string) (props : list (string * jsval)) : option jsval :=
  match props with
  | [] => None
  | (k', v) :: rest => if String.eqb k k' then Some v else ownProperty k rest
  end.

(** [f] holds of the two lists position by position, and they are equally
    long. *)
Fixpoint pairwise {A B : Type} (f : A -> B -> bool) (l : list A) (k : list B) : bool :=
  match l, k with
  | [], [] => true
  | a :: l', b :: k' => f a b && pairwise f l' k'
  | _, _ => false
  end.

Fixpoint deepEqual (a b : jsval) {struct a} : bool :=
  match a, b with
  | JUndefined, JUndefined => true
  | JNull, JNull => true
  | JBool x, JBool y => Bool.eqb x y
  | JNum x, JNum y => sameNumber x y
  | JStr x, JStr y => String.eqb x y
  | JArr xs, JArr ys => pairwise deepEqual xs ys
  | JObj ps, JObj qs =>
      (length ps =? length qs)%nat &&
      forallb (fun p => match ownProperty (fst p) qs with
                        | Some w => deepEqual (snd p) w
                        | None => false
                        end) ps
  | _, _ => false
  end.

(** The two values enumerate the properties of corresponding objects in the
    same order. *)
Fixpoint sameKeyOrder (a b : jsval) {struct a} : bool :=
  match a, b with
  | JArr xs, JArr ys => pairwise sameKeyOrder xs ys
  | JObj ps, JObj qs =>
      pairwise (fun p q => String.eqb (fst p) (fst q) && sameKeyOrder (snd p) (snd q))
        ps qs
  | _, _ => true
  end.

(** A JavaScript object has each property name once. *)
Fixpoint uniqueKeys (v : jsval) : bool :=
  match v with
  | JArr items => forallb uniqueKeys items
  | JObj props =>
      bool_decide (NoDup (map fst props)) &&
      forallb (fun p => uniqueKeys (snd p)) props
  | _ => true
  end.

(** ** Induction on values *)

Section JsvalInduction.

Variable Q : jsval -> Prop.
Hypothesis Q_undefined : Q JUndefined.
Hypothesis Q_null : Q JNull.
Hypothesis Q_bool : forall b, Q (JBool b).
Hypothesis Q_num : forall n, Q (JNum n).
Hypothesis Q_str : forall s, Q (JStr s).
Hypothesis Q_arr : forall items, Forall Q items -> Q (JArr items).
Hypothesis Q_obj : forall props, Forall (fun p => Q (snd p)) props -> Q (JObj props).

(** Induction over a value together with the values nested in it. *)
Fixpoint jsval_nested_ind (v : jsval) : Q v :=
  match v with
  | JUndefined => Q_undefined
  | JNull => Q_null
  | JBool b => Q_bool b
  | JNum n => Q_num n
  | JStr s => Q_str s
  | JArr items =>
      Q_arr items
        ((fix all (l : list jsval) : Forall Q l :=
            match l with
            | [] => List.Forall_nil Q
            | x :: l' => List.Forall_cons Q x l' (jsval_nested_ind x) (all l')
            end) items)
  | JObj props =>
      Q_obj props
        ((fix all (l : list (string * jsval)) : Forall (fun p => Q (snd p)) l :=
            match l with
            | [] => List.Forall_nil _
            | p :: l' =>
                List.Forall_cons (fun p => Q (snd p)) p l' (jsval_nested_ind (snd p)) (all l')
            end) props)
  end.

End JsvalInduction.

(** ** Promises, settlement and [await] *)

(** [PromiseSettledResult]: [{status: "fulfilled", value}] or
    [{status: "rejected", reason}]. *)
Inductive settled : Type :=
  | Fulfilled (value : jsval)
  | Rejected (reason : jsval).

(** An already constructed pending operation: the instant (ms) at which it
    settles, and how. *)
Record promise : Type := Promise { settlesAt : Z; settlement : settled }.

(** How an [async] function call ends: its promise resolves with a value or
    rejects with a reason. *)
Inductive outcome (A : Type) : Type :=
  | Returned (a : A)
  | Threw (e : jsval).
Arguments Returned {A} a.
Arguments Threw {A} e.

(** The TypeScript type [Promise<R> | R]. *)
Inductive maybePromise : Type :=
  | Direct (v : jsval)
  | Pending (p : promise).

(** [await x] evaluated at instant [t]: the value or the thrown reason, and
    the instant at which the caller resumes. *)
Definition await (x : maybePromise) (t : Z) : outcome jsval * Z :=
  match x with
  | Direct v => (Returned v, t)
  | Pending p =>
      (match settlement p with
       | Fulfilled value => Returned value
       | Rejected reason => Threw reason
       end, Z.max t (settlesAt p))
  end.

(** [Promise.allSettled(chunk)]: one result per promise, in input order. *)
Definition Promise_allSettled (chunk : list promise) : list settled :=
  map settlement chunk.

(** The instant at which [await Promise.allSettled(chunk)], begun at [t],
    resumes: when the last promise of [chunk] has settled. *)
Definition allSettledAt (chunk : list promise) (t : Z) : Z :=
  foldr (fun p acc => Z.max (settlesAt p) acc) t chunk.

(** [Array.prototype.slice(start, end)] with its treatment of negative and
    out-of-range indices. *)
Definition slice {A : Type} (l : list A) (start end_ : Z) : list A :=
  let len := Z.of_nat (length l) in
  let k := if start <? 0 then Z.max (len + start) 0 else Z.min start len in
  let final := if end_ <? 0 then Z.max (len + end_) 0 else Z.min end_ len in
  take (Z.to_nat (final - k)) (drop (Z.to_nat k) l).

(** ** [batchPromiseAllSettled] *)

Record results : Type := Results { resolved : list jsval; rejected : list jsval }.

(** The body of [for (const result of ...)]. *)
Definition pushResult (finalResults : results) (result : settled) : results :=
  match result with
  | Fulfilled value =>
      {| resolved := resolved finalResults ++ [value];
         rejected := rejected finalResults |}
  | Rejected reason =>
      {| resolved := resolved finalResults;
         rejected := rejected finalResults ++ [reason] |}
  end.

Definition pushResults (chunkResults : list settled) (finalResults : results) : results :=
  foldl pushResult finalResults chunkResults.

(** One [await Promise.allSettled(window)] of the executor, as observed:
    when the wait began, on which operations, and when it resumed. *)
Record awaitEvent : Type :=
  AwaitEvent { began : Z; window : list promise; resumed : Z }.

(** The executor's state: [finalResults], the clock, and the waits done so
    far (oldest first). *)
Record run : Type :=
  Run { finalResults : results; clock : Z; awaited : list awaitEvent }.

(** [const chunkResults = await Promise.allSettled(chunk)] followed by the
    [for ... of] that files every result. *)
Definition awaitAllSettled (chunk : list promise) (st : run) : run :=
  let t' := allSettledAt chunk (clock st) in
  {| finalResults := pushResults (Promise_allSettled chunk) (finalResults st);
     clock := t';
     awaited := awaited st ++ [{| began := clock st; window := chunk; resumed := t' |}] |}.

(** [for (let index = 0; index < promises.length; index += chunkSize)].
    The loop test comes first; one unit of fuel pays for one iteration, and
    [None] means the loop is still running when the fuel is spent. *)
Fixpoint batchLoop (fuel : nat) (promises : list promise) (chunkSize index : Z)
    (st : run) : option run :=
  if index <? Z.of_nat (length promises) then
    match fuel with
    | O => None
    | S fuel' =>
        let chunk := slice promises index (index + chunkSize) in
        batchLoop fuel' promises chunkSize (index + chunkSize) (awaitAllSettled chunk st)
    end
  else Some st.

Definition startRun (now : Z) : run :=
  {| finalResults := {| resolved := []; rejected := [] |}; clock := now; awaited := [] |}.

(** The call [batchPromiseAllSettled(promises, chunkSize)] made at instant
    [now].  The source has no [throw] and awaits only [Promise.allSettled],
    which never rejects, so every completed call is [Returned]. *)
Definition batchPromiseAllSettled (fuel : nat) (now : Z) (promises : list promise)
    (chunkSize : Z) : option (outcome run) :=
  if chunkSize =? 0 then Some (Returned (awaitAllSettled promises (startRun now)))
  else Returned <$> batchLoop fuel promises chunkSize 0 (startRun now).

(** What the caller receives: the [{resolved, rejected}] object. *)
Definition batchResult (fuel : nat) (now : Z) (promises : list promise)
    (chunkSize : Z) : option (outcome results) :=
  match batchPromiseAllSettled fuel now promises chunkSize with
  | Some (Returned st) => Some (Returned (finalResults st))
  | Some (Threw e) => Some (Threw e)
  | None => None
  end.

(** The windows the specification describes for a positive chunk size:
    consecutive groups of [chunkSize] operations, the last one possibly
    shorter.  (Written from the specification's words, to be compared with the
    waits of [batchLoop].) *)
Fixpoint windows_spec (fuel : nat) (chunkSize : nat) (ops : list promise)
    : list (list promise) :=
  match fuel, ops with
  | _, [] => []
  | O, _ => []
  | S fuel', _ => take chunkSize ops :: windows_spec fuel' chunkSize (drop chunkSize ops)
  end.

(** Strict sequencing of waits: every operation of a window has settled by
    the time that window's wait resumes, and a later wait begins no earlier
    than the earlier wait resumed. *)
Fixpoint sequentialFrom (t : Z) (evs : list awaitEvent) : Prop :=
  match evs with
  | [] => True
  | ev :: rest =>
      t <= began ev /\
      Forall (fun p => settlesAt p <= resumed ev) (window ev) /\
      began ev <= resumed ev /\
      sequentialFrom (resumed ev) rest
  end.

(** The instant the last wait of [evs] resumed, [t] if there was none. *)
Definition lastResumed (t : Z) (evs : list awaitEvent) : Z :=
  foldl (fun _ ev => resumed ev) t evs.

(** The values of the fulfilled results, and the reasons of the rejected
    ones, each in the order of the results. *)
Definition fulfilledValues (rs : list settled) : list jsval :=
  omap (fun r => match r with Fulfilled value => Some value | Rejected _ => None end) rs.
Definition rejectedReasons (rs : list settled) : list jsval :=
  omap (fun r => match r with Rejected reason => Some reason | Fulfilled _ => None end) rs.

(** The clock of a run is the instant its last wait resumed, and its waits
    are strictly sequential. *)
Definition runSequential (t0 : Z) (st : run) : Prop :=
  sequentialFrom t0 (awaited st) /\ lastResumed t0 (awaited st) = clock st.

(** A call fails fast when its promise rejects. *)
Definition failsFast {A : Type} (r : option (outcome A)) : Prop :=
  exists e, r = Some (Threw e).

(** ** Rejections that nobody handles

    The executor attaches a handler to a promise only when the wait on its
    window begins: [Promise.allSettled(chunk)] subscribes to the promises of
    [chunk] and to no other.  A promise that rejects while it has no handler,
    and gets none before the current turn of the event loop is over, is an
    unhandled rejection, and on an unhandled rejection Node (whose default is
    [--unhandled-rejections=throw], with no ['unhandledRejection'] listener
    installed) ends the process: the call never returns.  [batchLoop] is the
    loop as the source writes it; [batchLoopInNode] is the same loop together
    with what Node does while the loop is suspended at its [await].

    For these definitions an instant of the clock is a turn of the event
    loop (one callback together with the microtasks it leaves; promises
    settled by different callbacks settle at different instants, and Node
    looks for unhandled rejections at the end of each), each position of the
    array holds a promise of its own, and a promise that has not rejected
    before the call has no handlers but the ones the executor attaches.  (A
    promise that rejected in an earlier turn than the call and left the
    process running has been handled by then.) *)

Definition rejects (p : promise) : bool :=
  match settlement p with
  | Rejected _ => true
  | Fulfilled _ => false
  end.

(** The positions of an array of length [len] that [slice(start, end)]
    selects. *)
Definition slicePositions (len : nat) (start end_ : Z) : list nat :=
  slice (seq 0 len) start end_.

(** The instants, from [from] up to but not including [until], at which a
    promise of [promises] rejects while its position is not among
    [subscribed]. *)
Definition unhandledRejections (promises : list promise) (subscribed : list nat)
    (from until : Z) : list Z :=
  omap (fun ip : nat * promise =>
          if rejects ip.2 && (from <=? settlesAt ip.2) && (settlesAt ip.2 <? until)
             && negb (bool_decide (ip.1 ∈ subscribed))
          then Some (settlesAt ip.2)
          else None)
    (imap pair promises).

Definition earliest (ts : list Z) : option Z :=
  match ts with
  | [] => None
  | t :: rest => Some (foldr Z.min t rest)
  end.

(** How a call of the executor ends in Node: it returns, with the state
    [st]; or the process is ended at instant [instant] by an unhandled
    rejection, [st] being the state after the last wait that resumed and
    [waiting] the window of the wait that never resumes. *)
Inductive ending : Type :=
  | Completed (st : run)
  | ProcessEnded (instant : Z) (st : run) (waiting : list promise).

Fixpoint batchLoopInNode (fuel : nat) (promises : list promise) (chunkSize index : Z)
    (subscribed : list nat) (st : run) : option ending :=
  if index <? Z.of_nat (length promises) then
    match fuel with
    | O => None
    | S fuel' =>
        let chunk := slice promises index (index + chunkSize) in
        let subscribed' :=
          subscribed ++ slicePositions (length promises) index (index + chunkSize) in
        let st' := awaitAllSettled chunk st in
        match earliest (unhandledRejections promises subscribed' (clock st) (clock st')) with
        | Some t => Some (ProcessEnded t st chunk)
        | None =>
            batchLoopInNode fuel' promises chunkSize (index + chunkSize) subscribed' st'
        end
    end
  else Some (Completed st).

(** The call [batchPromiseAllSettled(promises, chunkSize)] made at instant
    [now] in Node.  With chunk size 0 every promise is subscribed to at
    once. *)
Definition batchPromiseAllSettledInNode (fuel : nat) (now : Z) (promises : list promise)
    (chunkSize : Z) : option ending :=
  if chunkSize =? 0 then Some (Completed (awaitAllSettled promises (startRun now)))
  else batchLoopInNode fuel promises chunkSize 0 [] (startRun now).

(** The waits that resumed, and the windows on which a wait began. *)
Definition completedWaits (e : ending) : list awaitEvent :=
  match e with
  | Completed st => awaited st
  | ProcessEnded _ st _ => awaited st
  end.

Definition windowsBegun (e : ending) : list (list promise) :=
  match e with
  | Completed st => map window (awaited st)
  | ProcessEnded _ st waiting => map window (awaited st) ++ [waiting]
  end.

(** What the caller receives, if anything. *)
Definition returned (e : ending) : option results :=
  match e with
  | Completed st => Some (finalResults st)
  | ProcessEnded _ _ _ => None
  end.

(** With a chunk size [k] > 0, the instant at which the wait on the window of
    position [i] begins: when every promise of the earlier windows has
    settled, and not before the call.  (Written from the arithmetic of the
    loop, to be compared with [batchLoopInNode].) *)
Definition windowBegins (now : Z) (k : nat) (promises : list promise) (i : nat) : Z :=
  allSettledAt (take (k * (i / k)) promises) now.

(** No promise rejects between the call and the beginning of the wait on its
    window. *)
Definition subscribedInTime (now : Z) (k : nat) (promises : list promise) : bool :=
  forallb (fun ip : nat * promise =>
             negb (rejects ip.2) || (settlesAt ip.2 <? now)
             || (windowBegins now k promises ip.1 <=? settlesAt ip.2))
    (imap pair promises).

(** ** [asyncCache] *)

(** A cache entry, [{ timestamp: number; value: Promise<R> | R }]. *)
Record entry : Type := Entry { timestamp : Z; value : maybePromise }.

(** The state the wrapper lives in: its [cache] map, the clock read by
    [Date.now()], and the log of the invocations of the wrapped function
    (the argument list of each, oldest first). *)
Record world : Type :=
  World { cache : gmap string entry; now : Z; calls : list (list jsval) }.

Definition setCache (c : gmap string entry) (w : world) : world :=
  {| cache := c; now := now w; calls := calls w |}.
Definition setNow (t : Z) (w : world) : world :=
  {| cache := cache w; now := t; calls := calls w |}.
Definition logCall (args : list jsval) (w : world) : world :=
  {| cache := cache w; now := now w; calls := calls w ++ [args] |}.

Definition millisecondsPerMinute : Z := 60 * 1000.

(** A memoized call is either finished at once with what the cache holds, or
    suspended at [await func(...args)] with the key it will store under. *)
Inductive suspension : Type :=
  | CacheHit (stored : maybePromise)
  | AwaitFunc (key : string) (pending : maybePromise)
  | FuncThrew (e : jsval).

Section AsyncCache.

(** The wrapped function: what its [n]-th invocation (counting from 0)
    does on the given arguments.  It may return a value or a promise, or
    throw; it may behave differently from one invocation to the next. *)
Variable func : nat -> list jsval -> outcome maybePromise.

(** The optional TTL in minutes; [None] is [undefined]. *)
Variable ttl : option Z.

(** [new Map()] at construction time. *)
Definition asyncCache (t0 : Z) : world :=
  {| cache := ∅; now := t0; calls := [] |}.

Definition isEntryExpired (dateNow : Z) (timestamp : Z) : bool :=
  match ttl with
  | None => false
  | Some ttl =>
      let timeDifference := dateNow - timestamp in
      let ttlMilliseconds := ttl * millisecondsPerMinute in
      timeDifference >? ttlMilliseconds
  end.

(** [memoizedFunc] up to its [await]: derive the key, look it up, and
    either return the stored value or invoke [func]. *)
Definition memoStart (w : world) (args : list jsval) : world * suspension :=
  let key := cacheKey args in
  let invoke :=
    (logCall args w,
     match func (length (calls w)) args with
     | Returned x => AwaitFunc key x
     | Threw e => FuncThrew e
     end) in
  match cache w !! key with
  | Some entry =>
      if negb (isEntryExpired (now w) (timestamp entry))
      then (w, CacheHit (value entry))
      else invoke
  | None => invoke
  end.

(** [memoizedFunc] after its [await] has produced [result]:
    [cache.set(key, { timestamp: Date.now(), value: result })]. *)
Definition memoResume (w : world) (key : string) (result : jsval) : world :=
  setCache (<[key := {| timestamp := now w; value := Direct result |}]> (cache w)) w.

(** A call of [memoizedFunc] that runs to completion with nothing else
    interleaved: the new state and how the returned promise ends.  A
    returned [entry.value] resolves the promise of the [async] function, so
    it is awaited like any other value. *)
Definition memoizedFunc (w : world) (args : list jsval) : world * outcome jsval :=
  match memoStart w args with
  | (w1, CacheHit stored) =>
      let '(o, t) := await stored (now w1) in (setNow t w1, o)
  | (w1, AwaitFunc key pending) =>
      let '(o, t) := await pending (now w1) in
      match o with
      | Returned result => (memoResume (setNow t w1) key result, Returned result)
      | Threw e => (setNow t w1, Threw e)
      end
  | (w1, FuncThrew e) => (w1, Threw e)
  end.

Definition deleteCache (w : world) (args : list jsval) : world :=
  let cacheKey := cacheKey args in
  setCache (delete cacheKey (cache w)) w.

Definition clearCache (w : world) : world := setCache ∅ w.

(** The entry a lookup of [args] would return from, if any: present and
    not expired at the current instant. *)
Definition freshEntry (w : world) (args : list jsval) : option entry :=
  match cache w !! cacheKey args with
  | Some entry => if isEntryExpired (now w) (timestamp entry) then None else Some entry
  | None => None
  end.

(** *** Interleaved executions

    Calls of the wrapper may overlap: each is suspended at its [await]
    while other calls, deletions and the clock go on.  A configuration is
    the world together with the suspended calls. *)
Definition config : Type := world * list (string * maybePromise).

Definition settledBy (t : Z) (x : maybePromise) : Prop :=
  match x with
  | Direct _ => True
  | Pending p => settlesAt p <= t
  end.

Inductive step : config -> config -> Prop :=
  | step_tick w fl d :
      0 <= d -> step (w, fl) (setNow (now w + d) w, fl)
  | step_hit w fl args stored :
      memoStart w args = (w, CacheHit stored) -> step (w, fl) (w, fl)
  | step_invoke w fl args w1 key pending :
      memoStart w args = (w1, AwaitFunc key pending) ->
      step (w, fl) (w1, fl ++ [(key, pending)])
  | step_invoke_threw w fl args w1 e :
      memoStart w args = (w1, FuncThrew e) -> step (w, fl) (w1, fl)
  | step_resume w fl1 fl2 key pending result t :
      settledBy (now w) pending ->
      await pending (now w) = (Returned result, t) ->
      step (w, fl1 ++ (key, pending) :: fl2) (memoResume w key result, fl1 ++ fl2)
  | step_reject w fl1 fl2 key pending e t :
      settledBy (now w) pending ->
      await pending (now w) = (Threw e, t) ->
      step (w, fl1 ++ (key, pending) :: fl2) (w, fl1 ++ fl2)
  | step_delete w fl args :
      step (w, fl) (deleteCache w args, fl)
  | step_clear w fl :
      step (w, fl) (clearCache w, fl).

(** Everything the wrapper can get into, starting from its construction. *)
Inductive reachable : config -> Prop :=
  | reachable_init t0 : reachable (asyncCache t0, [])
  | reachable_step c c' : reachable c -> step c c' -> reachable c'.

(** An entry holds an awaited value: a [Direct] result that some logged
    invocation of [func], made with arguments of that key, resolved to. *)
Definition resolvedBy (w : world) (key : string) (result : jsval) : Prop :=
  exists (i : nat) (args : list jsval) (x : maybePromise) (t t' : Z),
    calls w !! i = Some args /\ cacheKey args = key /\
    func i args = Returned x /\ await x t = (Returned result, t').

Definition entriesAwaited (w : world) : Prop :=
  forall key e, cache w !! key = Some e ->
    exists result, value e = Direct result /\ resolvedBy w key result.

(** A suspended call waits on what a logged invocation returned. *)
Definition inflightLogged (w : world) (call : string * maybePromise) : Prop :=
  exists (i : nat) (args : list jsval),
    calls w !! i = Some args /\ cacheKey args = call.1 /\
    func i args = Returned call.2.

(** How [await func(...args)] ends when it is the [n]-th invocation of
    [func] and is begun at instant [t]. *)
Definition invocationResult (n : nat) (args : list jsval) (t : Z) : outcome jsval :=
  match func n args with
  | Returned x => (await x t).1
  | Threw e => Threw e
  end.

End AsyncCache.

(** ** Example inputs *)

(** The four operations of the documentation of [batchPromiseAllSettled]:
    they settle after 1000, 2000, 1500 and 3000 ms, the second and the fourth
    by rejecting. *)
Definition exampleOps : list promise :=
  [ Promise 1000 (Fulfilled (JStr "Resolved after 1000ms"));
    Promise 2000 (Rejected (JStr "Rejected after 2000ms"));
    Promise 1500 (Fulfilled (JStr "Resolved after 1500ms"));
    Promise 3000 (Rejected (JStr "Rejected after 3000ms")) ].

(** Two operations of which the second rejects after 10 ms, while the first
    is still pending (it resolves after 30 ms). *)
Definition earlyRejection : list promise :=
  [ Promise 30 (Fulfilled (JStr "done")); Promise 10 (Rejected (JStr "failed")) ].

(** A wrapped function that returns, without a promise, the number of the
    invocation (as long as that is a safe integer). *)
Definition countingFunc (n : nat) (args : list jsval) : outcome maybePromise :=
  Returned (Direct (JNum (safeInteger (Z.of_nat n)))).

(** A wrapped function whose first invocation returns a promise that rejects
    and whose later invocations return a promise that resolves. *)
Definition flakyFunc (n : nat) (args : list jsval) : outcome maybePromise :=
  match n with
  | O => Returned (Pending (Promise 50 (Rejected (JStr "unavailable"))))
  | S _ => Returned (Pending (Promise 120 (Fulfilled (JStr "data"))))
  end.

Definition urlArgs : list jsval := [JStr "https://api.example.com/data"].

(** Two argument lists that [deepEqual] accepts as equal and that differ in
    the order of the properties of their object. *)
Definition argsAB : list jsval := [JObj [("a", JNum (Int 1 I)); ("b", JNum (Int 2 I))]].
Definition argsBA : list jsval := [JObj [("b", JNum (Int 2 I)); ("a", JNum (Int 1 I))]].

(** ** Calls that overlap *)

(** [k] calls of the memoized function with the same arguments, each begun
    while the earlier ones are still suspended at their [await]: the state
    after the [k] lookups. *)
Fixpoint startedCalls (func : nat -> list jsval -> outcome maybePromise)
    (ttl : option Z) (k : nat) (w : world) (args : list jsval) : world :=
  match k with
  | O => w
  | S k' => (memoStart func ttl (startedCalls func ttl k' w args) args).1
  end.

(** ** The JSON form of a value *)

(** What [JSON.stringify] keeps of a number: one that is not finite is
    written as [null], and [-0] as [0]. *)
Definition jsonNumber (n : number) : jsval :=
  match n with
  | NaN | Infinity | NegInfinity => JNull
  | NegZero => JNum (Int 0 I)
  | Int _ _ => JNum n
  end.

(** What [JSON.stringify] keeps of a value: an [undefined] array element is
    written as [null], a property whose value is [undefined] is left out, and
    numbers are kept as [jsonNumber] says. *)
Fixpoint jsonForm (v : jsval) : jsval :=
  match v with
  | JNum n => jsonNumber n
  | JArr items =>
      JArr (map (fun x => match x with JUndefined => JNull | _ => jsonForm x end) items)
  | JObj props =>
      JObj (omap (fun p => match snd p with
                           | JUndefined => None
                           | _ => Some (fst p, jsonForm (snd p))
                           end) props)
  | _ => v
  end.

Definition jsonFormArgs (args : list jsval) : list jsval :=
  map (fun x => match x with JUndefined => JNull | _ => jsonForm x end) args.

(** JSON data: a value in which no [undefined] occurs and every number is a
    safe integer (no [NaN], no infinity, no [-0]). *)
Fixpoint jsonData (v : jsval) : bool :=
  match v with
  | JUndefined => false
  | JNum (Int _ _) => true
  | JNum _ => false
  | JArr items => forallb jsonData items
  | JObj props => forallb (fun p => jsonData (snd p)) props
  | _ => true
  end.

(** No property of an object in [v] has the value [undefined]. *)
Fixpoint definedProperties (v : jsval) : bool :=
  match v with
  | JArr items => forallb definedProperties items
  | JObj props =>
      forallb (fun p => match snd p with
                        | JUndefined => false
                        | _ => definedProperties (snd p)
                        end) props
  | _ => true
  end.

(** The text of an array element. *)
Definition serializeItem (v : jsval) : string := default "null" (serializeJSON v).

(** *** Reading serialized text back (used to show that it is unambiguous) *)

(** The characters of a number: a digit or the minus sign. *)
Definition numberChar (c : Ascii.ascii) : bool :=
  let n := Ascii.nat_of_ascii c in
  (n =? 45)%nat || ((48 <=? n)%nat && (n <=? 57)%nat).

(** The kind of value a character can begin: 1 [null], 2 a boolean, 3 a
    number, 4 a string, 5 an array, 6 an object; 0 for a character that begins
    no value. *)
Definition headKind (c : Ascii.ascii) : nat :=
  let n := Ascii.nat_of_ascii c in
  if numberChar c then 3
  else if (n =? 110)%nat then 1
  else if (n =? 116)%nat || (n =? 102)%nat then 2
  else if (n =? 34)%nat then 4
  else if (n =? 91)%nat then 5
  else if (n =? 123)%nat then 6
  else 0.

Definition kindOf (v : jsval) : nat :=
  match v with
  | JUndefined => 0
  | JNull => 1
  | JBool _ => 2
  | JNum _ => 3
  | JStr _ => 4
  | JArr _ => 5
  | JObj _ => 6
  end.

(** What may follow a value: the end of the text, or a character that begins
    no value (a comma, a closing bracket or brace, a colon). *)
Definition delimited (r : string) : Prop :=
  match r with
  | EmptyString => True
  | String c _ => headKind c = 0%nat
  end.

Fixpoint allChars (f : Ascii.ascii -> bool) (s : string) : bool :=
  match s with
  | EmptyString => true
  | String c rest => f c && allChars f rest
  end.

Definition hexValue (c : Ascii.ascii) : option nat :=
  let n := Ascii.nat_of_ascii c in
  if ((48 <=? n) && (n <=? 57))%nat then Some (n - 48)%nat
  else if ((97 <=? n) && (n <=? 102))%nat then Some (n - 87)%nat
  else None.

(** The inverse of [quoteChar]: the character a quoted text begins with, and
    the rest of the text. *)
Definition unquoteChar (s : string) : option (Ascii.ascii * string) :=
  match s with
  | EmptyString => None
  | String c rest =>
      if negb (Ascii.eqb c backslash) then Some (c, rest)
      else
        match rest with
        | EmptyString => None
        | String e rest' =>
            let n := Ascii.nat_of_ascii e in
            if (n =? 34)%nat then Some (dquote, rest')
            else if (n =? 92)%nat then Some (backslash, rest')
            else if (n =? 98)%nat then Some (Ascii.ascii_of_nat 8, rest')
            else if (n =? 102)%nat then Some (Ascii.ascii_of_nat 12, rest')
            else if (n =? 110)%nat then Some (Ascii.ascii_of_nat 10, rest')
            else if (n =? 114)%nat then Some (Ascii.ascii_of_nat 13, rest')
            else if (n =? 116)%nat then Some (Ascii.ascii_of_nat 9, rest')
            else if (n =? 117)%nat then
              match rest' with
              | String _ (String _ (String h (String l rest''))) =>
                  match hexValue h, hexValue l with
                  | Some a, Some b => Some (Ascii.ascii_of_nat (16 * a + b), rest'')
                  | _, _ => None
                  end
              | _ => None
              end
            else None
        end
  end.

(** The text after the first element of an array, up to and including the
    closing bracket, followed by [r]. *)
Fixpoint itemsTail (items : list jsval) (r : string) : string :=
  match items with
  | [] => "]" +:+ r
  | x :: rest => "," +:+ serializeItem x +:+ itemsTail rest r
  end.

(** The same for the members of an object. *)
Fixpoint membersTail (props : list (string * jsval)) (r : string) : string :=
  match props with
  | [] => "}" +:+ r
  | p :: rest =>
      "," +:+ quoteJSONString (fst p) +:+ ":" +:+ serializeItem (snd p)
      +:+ membersTail rest r
  end.

(** The text of [v1] can only be read as [v1]: whenever it is followed by a
    delimited rest and equals the text of JSON data [v2] followed by a
    delimited rest, the values and the rests coincide. *)
Definition readsOneWay (v1 : jsval) : Prop :=
  forall v2 r1 r2,
    jsonData v1 = true -> jsonData v2 = true ->
    delimited r1 -> delimited r2 ->
    serializeItem v1 +:+ r1 = serializeItem v2 +:+ r2 ->
    v1 = v2 /\ r1 = r2.

(** ** [src/functional.ts]

    A function [(arg: T) => T] is a function to [outcome T]: it returns a
    value or throws.  An asynchronous one, [(arg: T) => Promise<T>], is
    modelled by what [await] makes of its promise, a value or a thrown
    reason. *)

(** The callback [(acc, func) => func(acc)] of [reduce] and [reduceRight];
    once a function has thrown the exception leaves the whole reduction. *)
Definition applyNext {T : Type} (acc : outcome T) (func : T -> outcome T) : outcome T :=
  match acc with
  | Returned a => func a
  | Threw e => Threw e
  end.

(** [funcs.reduceRight((acc, func) => func(acc), arg)] *)
Definition compose {T : Type} (funcs : list (T -> outcome T)) (arg : T) : outcome T :=
  foldr (fun func acc => applyNext acc func) (Returned arg) funcs.

(** [funcs.reduce((acc, func) => func(acc), arg)] *)
Definition pipe {T : Type} (funcs : list (T -> outcome T)) (arg : T) : outcome T :=
  foldl applyNext (Returned arg) funcs.

(** [for (const func of funcs) { result = await func(result); }
    return result;] *)
Fixpoint awaitEach {T : Type} (funcs : list (T -> outcome T)) (result : T) : outcome T :=
  match funcs with
  | [] => Returned result
  | func :: rest =>
      match func result with
      | Returned r => awaitEach rest r
      | Threw e => Threw e
      end
  end.

Definition pipeAsync {T : Type} (funcs : list (T -> outcome T)) (initialArg : T)
    : outcome T :=
  awaitEach funcs initialArg.

(** One call of the function returned by [composeAsync].  [funcs.reverse()]
    reverses the captured array in place, so the call also leaves the array
    reversed for the next call: the result is paired with the new contents of
    [funcs]. *)
Definition composeAsyncCall {T : Type} (funcs : list (T -> outcome T)) (initialArg : T)
    : list (T -> outcome T) * outcome T :=
  let reversed := reverse funcs in
  (reversed, awaitEach reversed initialArg).

(** Successive calls (none begun before the previous one has finished) of one
    function returned by [composeAsync], with the given arguments. *)
Fixpoint composeAsyncCalls {T : Type} (funcs : list (T -> outcome T)) (args : list T)
    : list (outcome T) :=
  match args with
  | [] => []
  | a :: rest =>
      let '(funcs', r) := composeAsyncCall funcs a in
      r :: composeAsyncCalls funcs' rest
  end.

(** What [curry] returns: the result of [fn], or the bound function
    [curry.bind(null, fn, ...args)], which holds the arguments given so far. *)
Inductive curried (R : Type) : Type :=
  | Applied (r : R)
  | Holding (args : list jsval).
Arguments Applied {R} r.
Arguments Holding {R} args.

(** [fn.length <= args.length ? fn(...args) : curry.bind(null, fn, ...args)];
    [fnLength] is [fn.length] and [fn] maps the argument list to the result. *)
Definition curry {R : Type} (fnLength : nat) (fn : list jsval -> R) (args : list jsval)
    : curried R :=
  if (fnLength <=? length args)%nat then Applied (fn args) else Holding args.

(** Calling what [curry] returned, once per group of arguments.  Calling the
    bound function with [more] is [curry(fn, ...args, ...more)]; a result of
    [fn] is not called here ([None]). *)
Fixpoint curriedCalls {R : Type} (fnLength : nat) (fn : list jsval -> R)
    (c : curried R) (groups : list (list jsval)) : option (curried R) :=
  match groups with
  | [] => Some c
  | more :: rest =>
      match c with
      | Holding args => curriedCalls fnLength fn (curry fnLength fn (args ++ more)) rest
      | Applied _ => None
      end
  end.

(** The closure of [once]: [called], [result] (at first [undefined]), and, to
    observe it, the argument lists [func] has been invoked with. *)
Record onceState : Type :=
  OnceState { called : bool; result : jsval; invoked : list (list jsval) }.

Definition onceInit : onceState :=
  {| called := false; result := JUndefined; invoked := [] |}.

(** One call of the function returned by [once(func)].  [called] is set
    before [func] runs, so it stays set when [func] throws. *)
Definition onceCall (func : list jsval -> outcome jsval) (st : onceState)
    (args : list jsval) : onceState * outcome jsval :=
  if negb (called st) then
    match func args with
    | Returned r =>
        ({| called := true; result := r; invoked := invoked st ++ [args] |}, Returned r)
    | Threw e =>
        ({| called := true; result := result st; invoked := invoked st ++ [args] |},
         Threw e)
    end
  else (st, Returned (result st)).

(** Successive calls of one function returned by [once(func)]. *)
Fixpoint onceCalls (func : list jsval -> outcome jsval) (st : onceState)
    (argss : list (list jsval)) : onceState * list (outcome jsval) :=
  match argss with
  | [] => (st, [])
  | args :: rest =>
      let '(st1, r) := onceCall func st args in
      let '(st2, rs) := onceCalls func st1 rest in
      (st2, r :: rs)
  end.

(** ** [src/data-manipulation.ts] *)

(** An element of the array given to [removeDuplicatesFromArray]: a value, or
    a structure in which a [Set] or a [Map] occurs. *)
#[local] Unset Elimination Schemes.
Inductive element : Type :=
  | EValue (v : jsval)
  | ESet (members : list element)
  | EMap (entries : list (element * element))
  | EArr (items : list element)
  | EObj (props : list (string * element)).
#[local] Set Elimination Schemes.

(** The replacer of [removeDuplicatesFromArray], applied throughout a value
    as [JSON.stringify] applies it: a [Set] becomes the array of its members
    ([Array.from(value)]), a [Map] the array of its [[key, value]] pairs
    ([Array.from(value.entries())]), anything else stays. *)
Fixpoint replaced (e : element) : jsval :=
  match e with
  | EValue v => v
  | ESet members => JArr (map replaced members)
  | EMap entries => JArr (map (fun kv => JArr [replaced (fst kv); replaced (snd kv)]) entries)
  | EArr items => JArr (map replaced items)
  | EObj props => JObj (map (fun p => (fst p, replaced (snd p))) props)
  end.

(** [JSON.stringify(item, replacer)]; [None] is the [undefined] it returns
    for an item without JSON text. *)
Definition itemKey (item : element) : option string := serializeJSON (replaced item).

(** The callback of [array.forEach]: [seen] (the keys met, oldest first) and
    [result]. *)
Definition rememberItem (st : list (option string) * list element) (item : element)
    : list (option string) * list element :=
  let key := itemKey item in
  if bool_decide (key ∈ st.1) then st else (st.1 ++ [key], st.2 ++ [item]).

Definition removeDuplicatesFromArray (array : list element) : list element :=
  (foldl rememberItem ([], []) array).2.

(** The items of [array] whose key is neither in [seen] nor the key of an
    earlier item of [array] (by recursion on the array; compared with the
    loop in [removeDuplicates_firstByKey]). *)
Fixpoint firstByKey (seen : list (option string)) (array : list element) : list element :=
  match array with
  | [] => []
  | item :: rest =>
      if bool_decide (itemKey item ∈ seen) then firstByKey seen rest
      else item :: firstByKey (seen ++ [itemKey item]) rest
  end.

(** [value !== undefined] *)
Definition isDefined (v : jsval) : bool :=
  match v with
  | JUndefined => false
  | _ => true
  end.

(** [obj[key] = value] on an object given by the list of its properties: the
    value of an existing property is replaced where it stands, a new property
    comes last.  (JavaScript enumerates property names that are array indices
    before the others; the lists here are in insertion order, and what is
    proved of [pickKeys] and [merge] concerns lookups only.) *)
Fixpoint setProperty (key : string) (value : jsval) (props : list (string * jsval))
    : list (string * jsval) :=
  match props with
  | [] => [(key, value)]
  | (k, v) :: rest =>
      if String.eqb key k then (key, value) :: rest
      else (k, v) :: setProperty key value rest
  end.

(** The names of the properties of [Object.prototype], which an object
    created by an object literal or by [structuredClone] inherits; all are
    methods except [__proto__], an accessor. *)
Definition objectPrototypeNames : list string :=
  [ "constructor"; "__defineGetter__"; "__defineSetter__"; "hasOwnProperty";
    "__lookupGetter__"; "__lookupSetter__"; "isPrototypeOf";
    "propertyIsEnumerable"; "toString"; "valueOf"; "__proto__";
    "toLocaleString" ].

(** [obj[key] = value] on the object that [buildOptionalObject] builds from
    [{}], as far as its own properties go.  An assignment to [__proto__]
    reaches the setter inherited from [Object.prototype]: it replaces the
    prototype of [obj] (when [value] is an object or [null]) or does nothing,
    and adds no property. *)
Definition assignProperty (key : string) (value : jsval) (props : list (string * jsval))
    : list (string * jsval) :=
  if String.eqb key "__proto__" then props else setProperty key value props.

(** [Object.entries(fields).reduce((obj, [key, value]) => { if (value !==
    undefined) obj[key] = value; return obj; }, {})]: the own properties of
    the object returned. *)
Definition buildOptionalObject (fields : list (string * jsval)) : list (string * jsval) :=
  foldl (fun obj entry =>
           if isDefined (snd entry) then assignProperty (fst entry) (snd entry) obj
           else obj)
    [] fields.

(** [keys.includes(key)] *)
Definition includes (keys : list string) (key : string) : bool :=
  existsb (String.eqb key) keys.

(** [object(obj).removeKeys(...keys)]: the entries whose key is not among
    [keys], each added by [{ ...acc, [key]: value }]. *)
Definition removeKeys (clonedObj : list (string * jsval)) (keys : list string)
    : list (string * jsval) :=
  foldl (fun acc entry => setProperty (fst entry) (snd entry) acc) []
    (filter (fun entry => negb (includes keys (fst entry))) clonedObj).

(** [object(obj).pickKeys(...keys)]: for each key with [key in clonedObj],
    [pickedObj[key] = clonedObj[key]].  [key in clonedObj] holds of the own
    properties of the clone and of the names it inherits from
    [Object.prototype].  For an inherited name the value assigned is a method
    of [Object.prototype], and an assignment to [__proto__] goes to the
    inherited setter; the embedding has no values for these, and the result
    is [None] when such a key occurs. *)
Definition pickKeys (clonedObj : list (string * jsval)) (keys : list string)
    : option (list (string * jsval)) :=
  foldl (fun picked key =>
           match picked with
           | None => None
           | Some pickedObj =>
               match ownProperty key clonedObj with
               | Some value =>
                   if String.eqb key "__proto__" then None
                   else Some (setProperty key value pickedObj)
               | None =>
                   if includes objectPrototypeNames key then None
                   else Some pickedObj
               end
           end)
    (Some []) keys.

(** [{ ...acc, ...mixin }] *)
Definition spread (acc mixin : list (string * jsval)) : list (string * jsval) :=
  foldl (fun obj entry => setProperty (fst entry) (snd entry) obj) acc mixin.

(** [object(obj).merge(...mixins)]:
    [mixins.reduce((acc, mixin) => ({ ...acc, ...mixin }), clonedObj)] *)
Definition merge (clonedObj : list (string * jsval)) (mixins : list (list (string * jsval)))
    : list (string * jsval) :=
  foldl spread clonedObj mixins.

(** The value that the last of [objs] having the property [key] gives it,
    [start] when none has it. *)
Definition lastValue (key : string) (start : option jsval)
    (objs : list (list (string * jsval))) : option jsval :=
  foldl (fun found obj =>
           match ownProperty key obj with
           | Some v => Some v
           | None => found
           end)
    start objs.

(** ** Example inputs for [functional.ts] and [data-manipulation.ts] *)

(** The functions of the documentation of [compose] and [pipe]. *)
Definition addOne (x : Z) : outcome Z := Returned (x + 1).
Definition double (x : Z) : outcome Z := Returned (x * 2).
Definition subtractThree (x : Z) : outcome Z := Returned (x - 3).

(** [function add(a, b, c) { return a + b + c; }] on numbers. *)
Definition add (args : list jsval) : Z :=
  match args with
  | JNum (Int a _) :: JNum (Int b _) :: JNum (Int c _) :: _ => a + b + c
  | _ => 0
  end.

(** The object [person] at the end of [data-manipulation.ts]. *)
Definition person : list (string * jsval) :=
  [("name", JStr "Alice"); ("age", JNum (Int 30 I)); ("city", JStr "New York")].

(** A wrapped function that throws when called without arguments and
    returns its first argument otherwise. *)
Definition firstArgument (args : list jsval) : outcome jsval :=
  match args with
  | [] => Threw (JStr "no argument")
  | x :: _ => Returned x
  end.

(** * Proofs *)

(** ** [slice] and the windows *)

Lemma slice_forward {A : Type} (l : list A) (i k : Z) :
  0 <= i -> 0 <= k ->
  slice l i (i + k) = take (Z.to_nat k) (drop (Z.to_nat i) l).
Proof.
  intros Hi Hk. unfold slice.
  destruct (Z.ltb_spec i 0) as [?|_]; [lia|].
  destruct (Z.ltb_spec (i + k) 0) as [?|_]; [lia|].
  destruct (Z.le_gt_cases i (Z.of_nat (length l))) as [Hle|Hgt].
  - rewrite (Z.min_l i) by lia.
    destruct (Z.le_gt_cases (i + k) (Z.of_nat (length l))) as [Hle'|Hgt'].
    + rewrite Z.min_l by lia. f_equal. lia.
    + rewrite Z.min_r by lia.
      rewrite !take_ge; [done| |]; rewrite length_drop; lia.
  - rewrite !drop_ge by lia. by rewrite !take_nil.
Qed.

Lemma slice_whole {A : Type} (l : list A) (k : Z) :
  Z.of_nat (length l) <= k -> slice l 0 (0 + k) = l.
Proof.
  intros Hk. rewrite slice_forward by lia. simpl. apply take_ge. lia.
Qed.

Lemma windows_spec_concat fuel n ops :
  (0 < n)%nat -> (length ops <= fuel)%nat ->
  concat (windows_spec fuel n ops) = ops.
Proof.
  intros Hn. revert ops. induction fuel as [|fuel IH]; intros ops Hfuel.
  - destruct ops; [done | simpl in Hfuel; lia].
  - destruct ops as [|p ops]; [done|].
    change (windows_spec (S fuel) n (p :: ops))
      with (take n (p :: ops) :: windows_spec fuel n (drop n (p :: ops))).
    simpl concat. rewrite IH.
    + apply take_drop.
    + rewrite length_drop. simpl in *. lia.
Qed.

Lemma windows_spec_sizes fuel n ops :
  (0 < n)%nat ->
  Forall (fun w => (0 < length w <= n)%nat) (windows_spec fuel n ops).
Proof.
  intros Hn. revert ops. induction fuel as [|fuel IH]; intros ops.
  - destruct ops; constructor.
  - destruct ops as [|p ops]; [constructor|].
    change (windows_spec (S fuel) n (p :: ops))
      with (take n (p :: ops) :: windows_spec fuel n (drop n (p :: ops))).
    constructor; [|apply IH].
    rewrite length_take. simpl. lia.
Qed.

(** With a positive chunk size and one unit of fuel per remaining operation
    the loop finishes, having waited on exactly the windows of the
    specification, one after the other. *)
Lemma batchLoop_windows fuel promises chunkSize index st :
  0 < chunkSize -> 0 <= index ->
  (length (drop (Z.to_nat index) promises) <= fuel)%nat ->
  batchLoop fuel promises chunkSize index st =
  Some (foldl (fun st w => awaitAllSettled w st) st
          (windows_spec fuel (Z.to_nat chunkSize) (drop (Z.to_nat index) promises))).
Proof.
  intros Hk. revert index st.
  induction fuel as [|fuel IH]; intros index st Hi Hfuel.
  - destruct (drop (Z.to_nat index) promises) eqn:Hd; [|simpl in Hfuel; lia].
    simpl. destruct (Z.ltb_spec index (Z.of_nat (length promises))) as [Hlt|]; [|done].
    apply (f_equal length) in Hd. rewrite length_drop in Hd. simpl in Hd. lia.
  - cbn [batchLoop].
    destruct (Z.ltb_spec index (Z.of_nat (length promises))) as [Hlt|Hge].
    + rewrite IH; [|lia|].
      * rewrite slice_forward by lia.
        destruct (drop (Z.to_nat index) promises) as [|p rest] eqn:Hd.
        { apply (f_equal length) in Hd. rewrite length_drop in Hd. simpl in Hd. lia. }
        change (windows_spec (S fuel) (Z.to_nat chunkSize) (p :: rest))
          with (take (Z.to_nat chunkSize) (p :: rest)
                :: windows_spec fuel (Z.to_nat chunkSize)
                     (drop (Z.to_nat chunkSize) (p :: rest))).
        cbn [foldl]. rewrite <- Hd, drop_drop.
        by replace (Z.to_nat (index + chunkSize))
          with (Z.to_nat index + Z.to_nat chunkSize)%nat by lia.
      * rewrite length_drop in *. lia.
    + rewrite drop_ge by lia. by destruct fuel.
Qed.

Lemma windows_spec_fuel f1 f2 n ops :
  (0 < n)%nat -> (length ops <= f1)%nat -> (length ops <= f2)%nat ->
  windows_spec f1 n ops = windows_spec f2 n ops.
Proof.
  intros Hn. revert f2 ops. induction f1 as [|f1 IH]; intros f2 ops H1 H2.
  - destruct ops; [by destruct f2 | simpl in H1; lia].
  - destruct ops as [|p ops]; [by destruct f2|].
    destruct f2 as [|f2]; [simpl in H2; lia|].
    change (take n (p :: ops) :: windows_spec f1 n (drop n (p :: ops)) =
            take n (p :: ops) :: windows_spec f2 n (drop n (p :: ops))).
    f_equal. apply IH; rewrite length_drop; simpl in *; lia.
Qed.

(** ** What the waits leave in [finalResults] and in the trace *)

Lemma pushResults_spec rs acc :
  pushResults rs acc =
  {| resolved := resolved acc ++ fulfilledValues rs;
     rejected := rejected acc ++ rejectedReasons rs |}.
Proof.
  unfold pushResults. revert acc.
  induction rs as [|r rs IH]; intros acc.
  - simpl. rewrite !app_nil_r. by destruct acc.
  - cbn [foldl]. rewrite IH.
    destruct r; simpl; by rewrite <- !app_assoc.
Qed.

Lemma fulfilled_rejected_length rs :
  (length (fulfilledValues rs) + length (rejectedReasons rs) = length rs)%nat.
Proof.
  induction rs as [|[v|e] rs IH]; simpl; [done| |];
    unfold fulfilledValues, rejectedReasons in *; simpl; lia.
Qed.

Lemma fulfilledValues_app rs1 rs2 :
  fulfilledValues (rs1 ++ rs2) = fulfilledValues rs1 ++ fulfilledValues rs2.
Proof. apply omap_app. Qed.

Lemma rejectedReasons_app rs1 rs2 :
  rejectedReasons (rs1 ++ rs2) = rejectedReasons rs1 ++ rejectedReasons rs2.
Proof. apply omap_app. Qed.

Lemma awaits_finalResults ws st :
  finalResults (foldl (fun st w => awaitAllSettled w st) st ws) =
  pushResults (Promise_allSettled (concat ws)) (finalResults st).
Proof.
  revert st. induction ws as [|w ws IH]; intros st; [done|].
  cbn [foldl concat]. rewrite IH. cbn [awaitAllSettled finalResults].
  unfold Promise_allSettled. rewrite map_app.
  rewrite !pushResults_spec. cbn [resolved rejected].
  by rewrite fulfilledValues_app, rejectedReasons_app, !app_assoc.
Qed.

Lemma awaits_windows ws st :
  map window (awaited (foldl (fun st w => awaitAllSettled w st) st ws)) =
  map window (awaited st) ++ ws.
Proof.
  revert st. induction ws as [|w ws IH]; intros st.
  - simpl. by rewrite app_nil_r.
  - cbn [foldl]. rewrite IH. cbn [awaitAllSettled awaited].
    rewrite map_app. simpl. by rewrite <- app_assoc.
Qed.

Lemma allSettledAt_ge chunk t :
  t <= allSettledAt chunk t /\
  Forall (fun p => settlesAt p <= allSettledAt chunk t) chunk.
Proof.
  induction chunk as [|p chunk [IH1 IH2]]; simpl.
  - split; [lia | constructor].
  - split; [lia|]. constructor; [lia|].
    eapply Forall_impl; [exact IH2|]. simpl. intros. lia.
Qed.

Lemma sequentialFrom_snoc t evs ev :
  sequentialFrom t evs ->
  lastResumed t evs <= began ev ->
  Forall (fun p => settlesAt p <= resumed ev) (window ev) ->
  began ev <= resumed ev ->
  sequentialFrom t (evs ++ [ev]).
Proof.
  revert t. induction evs as [|e evs IH]; intros t Hs Hl Hw Hb; simpl in *.
  - done.
  - destruct Hs as (H1 & H2 & H3 & H4). repeat split; try done.
    apply IH; done.
Qed.

Lemma lastResumed_snoc t evs ev : lastResumed t (evs ++ [ev]) = resumed ev.
Proof. unfold lastResumed. by rewrite foldl_app. Qed.

Lemma awaitAllSettled_sequential t0 chunk st :
  runSequential t0 st -> runSequential t0 (awaitAllSettled chunk st).
Proof.
  intros [Hs Hc]. destruct (allSettledAt_ge chunk (clock st)) as [Hge Hall].
  split; cbn [awaitAllSettled awaited clock].
  - apply sequentialFrom_snoc; simpl; [done|lia|done|done].
  - by rewrite lastResumed_snoc.
Qed.

Lemma awaits_sequential t0 ws st :
  runSequential t0 st ->
  runSequential t0 (foldl (fun st w => awaitAllSettled w st) st ws).
Proof.
  revert st. induction ws as [|w ws IH]; intros st Hst; [done|].
  cbn [foldl]. by apply IH, awaitAllSettled_sequential.
Qed.

Lemma startRun_sequential t0 : runSequential t0 (startRun t0).
Proof. by split. Qed.

Lemma batchLoop_done fuel promises chunkSize index st :
  Z.of_nat (length promises) <= index ->
  batchLoop fuel promises chunkSize index st = Some st.
Proof.
  intros Hge. destruct fuel; simpl;
    by destruct (Z.ltb_spec index (Z.of_nat (length promises))); [lia|].
Qed.

(** With a negative chunk size the index never reaches the length: on a
    non-empty sequence the loop is still running whatever the fuel. *)
Lemma batchLoop_negative_runs_on fuel promises chunkSize index st :
  chunkSize < 0 -> index <= 0 -> promises <> [] ->
  batchLoop fuel promises chunkSize index st = None.
Proof.
  intros Hk Hi Hne. revert index st Hi.
  assert (0 < Z.of_nat (length promises)) as Hlen.
  { destruct promises; [done | simpl; lia]. }
  induction fuel as [|fuel IH]; intros index st Hi; cbn [batchLoop];
    destruct (Z.ltb_spec index (Z.of_nat (length promises))); try lia; [done|].
  apply IH. lia.
Qed.

Lemma batchPromiseAllSettled_negative_runs_on fuel now promises chunkSize :
  chunkSize < 0 -> promises <> [] ->
  batchPromiseAllSettled fuel now promises chunkSize = None.
Proof.
  intros Hk Hne. unfold batchPromiseAllSettled.
  destruct (Z.eqb_spec chunkSize 0); [lia|].
  by rewrite batchLoop_negative_runs_on by (done || lia).
Qed.

Lemma batchPromiseAllSettled_positive fuel now promises chunkSize :
  0 < chunkSize -> (length promises <= fuel)%nat ->
  batchPromiseAllSettled fuel now promises chunkSize =
  Some (Returned (foldl (fun st w => awaitAllSettled w st) (startRun now)
                    (windows_spec fuel (Z.to_nat chunkSize) promises))).
Proof.
  intros Hk Hfuel. unfold batchPromiseAllSettled.
  destruct (Z.eqb_spec chunkSize 0); [lia|].
  by rewrite batchLoop_windows by (simpl; lia || done).
Qed.

Lemma allSettledAt_max chunk t u :
  allSettledAt chunk (Z.max u t) = Z.max u (allSettledAt chunk t).
Proof.
  induction chunk as [|p chunk IH]; simpl; [done|]. rewrite IH. lia.
Qed.

Lemma allSettledAt_app chunk1 chunk2 t :
  allSettledAt (chunk1 ++ chunk2) t = allSettledAt chunk2 (allSettledAt chunk1 t).
Proof.
  revert t. induction chunk1 as [|p chunk1 IH]; intros t; simpl; [done|].
  by rewrite IH, allSettledAt_max.
Qed.

Lemma awaits_clock ws st :
  clock (foldl (fun st w => awaitAllSettled w st) st ws) =
  allSettledAt (concat ws) (clock st).
Proof.
  revert st. induction ws as [|w ws IH]; intros st; [done|].
  cbn [foldl concat]. rewrite IH, allSettledAt_app. done.
Qed.

(** ** Rejections that nobody handles *)

Lemma earliest_None ts : earliest ts = None <-> ts = [].
Proof. by destruct ts. Qed.

Lemma earliest_elem ts t : earliest ts = Some t -> t ∈ ts.
Proof.
  destruct ts as [|u ts]; [done|]. simpl. intros [= <-].
  induction ts as [|v ts IH]; simpl; [left|].
  destruct (Z.min_spec v (foldr Z.min u ts)) as [[_ ->]|[_ ->]].
  - right. left.
  - apply elem_of_cons in IH as [->|IH]; [left | right; by right].
Qed.

Lemma unhandledRejections_elem promises subscribed from until t :
  t ∈ unhandledRejections promises subscribed from until <->
  exists i p, promises !! i = Some p /\ rejects p = true /\ settlesAt p = t /\
              from <= t < until /\ i ∉ subscribed.
Proof.
  unfold unhandledRejections. rewrite list_elem_of_omap. split.
  - intros ([i0 p0] & Hin & Hsome).
    apply elem_of_lookup_imap in Hin as (i & p & [= -> ->] & Hp).
    simpl in Hsome.
    destruct (rejects p) eqn:Hr; [|done].
    destruct (Z.leb_spec from (settlesAt p)); [|done].
    destruct (Z.ltb_spec (settlesAt p) until); [|done].
    case_bool_decide; [done|]. simpl in Hsome. injection Hsome as <-.
    exists i, p. split_and!; done || lia.
  - intros (i & p & Hp & Hr & <- & Hint & Hsub).
    exists (i, p). split; [by apply (elem_of_lookup_imap_2 pair)|].
    simpl. rewrite Hr.
    destruct (Z.leb_spec from (settlesAt p)); [|lia].
    destruct (Z.ltb_spec (settlesAt p) until); [|lia].
    by case_bool_decide.
Qed.

Lemma unhandledRejections_none promises subscribed from until :
  earliest (unhandledRejections promises subscribed from until) = None <->
  forall i p, promises !! i = Some p -> rejects p = true ->
              from <= settlesAt p < until -> i ∈ subscribed.
Proof.
  rewrite earliest_None. split.
  - intros Hnil i p Hp Hr Hint.
    destruct (decide (i ∈ subscribed)) as [|Hn]; [done|].
    assert (settlesAt p ∈ unhandledRejections promises subscribed from until) as Hin.
    { apply unhandledRejections_elem. by exists i, p. }
    rewrite Hnil in Hin. by apply not_elem_of_nil in Hin.
  - intros Hall. apply elem_of_nil_inv. intros t Hin.
    apply unhandledRejections_elem in Hin as (i & p & Hp & Hr & <- & Hint & Hsub).
    by apply Hsub, (Hall i p).
Qed.

Lemma slicePositions_forward len i k n :
  0 <= i -> 0 <= k ->
  n ∈ slicePositions len i (i + k) <->
  (Z.of_nat n < Z.of_nat len /\ i <= Z.of_nat n < i + k).
Proof.
  intros Hi Hk. unfold slicePositions. rewrite slice_forward by done.
  rewrite drop_seq, take_seq, elem_of_seq. lia.
Qed.

Lemma batchLoop_awaited_prefix fuel promises k index st st' :
  batchLoop fuel promises k index st = Some st' -> awaited st `prefix_of` awaited st'.
Proof.
  revert index st. induction fuel as [|fuel IH]; intros index st; cbn [batchLoop];
    destruct (index <? Z.of_nat (length promises)); try done.
  - by intros [= ->].
  - intros Hrun%IH. etrans; [|exact Hrun]. by apply prefix_app_r.
  - by intros [= ->].
Qed.

Lemma batchLoopInNode_completed fuel promises k index sub st st' :
  batchLoopInNode fuel promises k index sub st = Some (Completed st') ->
  batchLoop fuel promises k index st = Some st'.
Proof.
  revert index sub st. induction fuel as [|fuel IH]; intros index sub st;
    cbn [batchLoopInNode batchLoop];
    destruct (index <? Z.of_nat (length promises)); try done.
  - by intros [= ->].
  - destruct (earliest _); [done|]. apply IH.
  - by intros [= ->].
Qed.

Lemma batchLoopInNode_ended fuel promises k index sub st t st' w stI :
  batchLoopInNode fuel promises k index sub st = Some (ProcessEnded t st' w) ->
  batchLoop fuel promises k index st = Some stI ->
  awaited (awaitAllSettled w st') `prefix_of` awaited stI /\
  clock st' <= t < clock (awaitAllSettled w st').
Proof.
  revert index sub st. induction fuel as [|fuel IH]; intros index sub st;
    cbn [batchLoopInNode batchLoop];
    destruct (index <? Z.of_nat (length promises)); try done.
  destruct (earliest _) as [u|] eqn:He; [|apply IH].
  intros [= -> -> <-] Hrun. split; [by apply batchLoop_awaited_prefix in Hrun|].
  apply earliest_elem, unhandledRejections_elem in He as (i & p & _ & _ & <- & Hint & _).
  exact Hint.
Qed.

Lemma batchLoopInNode_sequential t0 fuel promises k index sub st e :
  runSequential t0 st ->
  batchLoopInNode fuel promises k index sub st = Some e ->
  sequentialFrom t0 (completedWaits e) /\
  match e with
  | Completed st' => lastResumed t0 (awaited st') = clock st'
  | ProcessEnded _ st' _ => lastResumed t0 (awaited st') = clock st'
  end.
Proof.
  revert index sub st. induction fuel as [|fuel IH]; intros index sub st Hseq;
    cbn [batchLoopInNode];
    destruct (index <? Z.of_nat (length promises)); try done.
  - by intros [= <-].
  - destruct (earliest _) as [u|].
    + by intros [= <-].
    + apply IH. by apply awaitAllSettled_sequential.
  - by intros [= <-].
Qed.

Lemma batchLoopInNode_total fuel promises k index sub st :
  0 < k -> 0 <= index ->
  (length (drop (Z.to_nat index) promises) <= fuel)%nat ->
  exists e, batchLoopInNode fuel promises k index sub st = Some e.
Proof.
  intros Hk. revert index sub st.
  induction fuel as [|fuel IH]; intros index sub st Hi Hfuel; cbn [batchLoopInNode];
    destruct (Z.ltb_spec index (Z.of_nat (length promises))) as [Hlt|Hge]; eauto.
  - rewrite length_drop in Hfuel. lia.
  - destruct (earliest _); [eauto|]. apply IH; [lia|].
    rewrite length_drop in *. lia.
Qed.

Lemma allSettledAt_take_mono promises t (m m' : nat) :
  (m <= m')%nat ->
  allSettledAt (take m promises) t <= allSettledAt (take m' promises) t.
Proof.
  intros Hle. replace m' with (m + (m' - m))%nat by lia.
  rewrite <- take_take_drop, allSettledAt_app. apply allSettledAt_ge.
Qed.

Lemma windowBegins_in_window now (k j i : nat) promises :
  (k * j <= i < k * j + k)%nat ->
  windowBegins now k promises i = allSettledAt (take (k * j) promises) now.
Proof.
  intros Hi. unfold windowBegins.
  assert (i / k = j)%nat as ->; [|done].
  symmetry. apply (Nat.div_unique i k j (i - k * j)); lia.
Qed.

Lemma windowBegins_later now (k j i : nat) promises :
  (0 < k)%nat -> (k * j <= i)%nat ->
  allSettledAt (take (k * j) promises) now <= windowBegins now k promises i.
Proof.
  intros Hk Hi. apply allSettledAt_take_mono.
  apply Nat.mul_le_mono_l. apply Nat.div_le_lower_bound; lia.
Qed.

(** The loop returns exactly when no promise it has yet to subscribe to
    rejects before the wait on its window begins. *)
Lemma batchLoopInNode_completes_iff now promises (k : nat) fuel (j : nat) sub st :
  (0 < k)%nat ->
  (length (drop (k * j) promises) <= fuel)%nat ->
  (forall i, (i < length promises)%nat -> i ∈ sub <-> (i < k * j)%nat) ->
  clock st = allSettledAt (take (k * j) promises) now ->
  (forall i p, promises !! i = Some p -> (k * j <= i)%nat -> rejects p = true ->
               ~ (now <= settlesAt p < clock st)) ->
  (exists st', batchLoopInNode fuel promises (Z.of_nat k) (Z.of_nat (k * j)) sub st
               = Some (Completed st')) <->
  (forall i p, promises !! i = Some p -> (k * j <= i)%nat -> rejects p = true ->
               settlesAt p < now \/ windowBegins now k promises i <= settlesAt p).
Proof.
  intros Hk. revert j sub st.
  induction fuel as [|fuel IH]; intros j sub st Hfuel Hsub Hclock Hsofar;
    cbn [batchLoopInNode];
    destruct (Z.ltb_spec (Z.of_nat (k * j)) (Z.of_nat (length promises))) as [Hlt|Hge].
  - rewrite length_drop in Hfuel. lia.
  - split; [|by eauto]. intros _ i p Hp Hi _.
    apply lookup_lt_Some in Hp. lia.
  - set (chunk := slice promises (Z.of_nat (k * j)) (Z.of_nat (k * j) + Z.of_nat k)).
    set (sub' := sub ++ slicePositions (length promises) (Z.of_nat (k * j))
                          (Z.of_nat (k * j) + Z.of_nat k)).
    assert (forall i, (i < length promises)%nat -> i ∈ sub' <-> (i < k * S j)%nat) as Hsub'.
    { intros i Hi. unfold sub'. rewrite elem_of_app, slicePositions_forward by lia.
      rewrite (Hsub i Hi). lia. }
    assert (clock (awaitAllSettled chunk st) = allSettledAt (take (k * S j) promises) now)
      as Hclock'.
    { cbn [awaitAllSettled clock]. unfold chunk. rewrite slice_forward by lia.
      rewrite Hclock, <- allSettledAt_app, !Nat2Z.id, take_take_drop.
      f_equal. f_equal. lia. }
    assert (now <= clock st) as Hnow by (rewrite Hclock; apply allSettledAt_ge).
    assert (Z.of_nat (k * j) + Z.of_nat k = Z.of_nat (k * S j)) as Hnext by lia.
    destruct (earliest _) as [t|] eqn:Hcheck.
    + split; [by intros [st' Hst']|]. intros Hall. exfalso.
      apply earliest_elem, unhandledRejections_elem in Hcheck
        as (i & p & Hp & Hr & <- & Hint & Hnot).
      fold sub' in Hnot. rewrite Hsub' in Hnot by (by apply lookup_lt_Some in Hp).
      destruct (Hall i p Hp ltac:(lia) Hr) as [Hbefore|Hafter]; [lia|].
      pose proof (windowBegins_later now k (S j) i promises Hk ltac:(lia)) as Hw.
      rewrite Hclock' in Hint. lia.
    + pose proof (proj1 (unhandledRejections_none _ _ _ _) Hcheck) as Hnone.
      clear Hcheck. rewrite Hnext.
      rewrite (IH (S j) sub' (awaitAllSettled chunk st)); [| |done..|].
      * split; intros Hall i p Hp Hi Hr.
        -- destruct (Nat.lt_ge_cases i (k * S j)) as [Hin|Hout]; [|by apply Hall].
           rewrite (windowBegins_in_window now k j) by lia. rewrite <- Hclock.
           specialize (Hsofar i p Hp Hi Hr). lia.
        -- apply Hall; [done | lia | done].
      * rewrite length_drop in *. lia.
      * intros i p Hp Hi Hr Hint.
        destruct (Z.lt_ge_cases (settlesAt p) (clock st)) as [Hearly|Hlate].
        -- apply (Hsofar i p Hp ltac:(lia) Hr). lia.
        -- specialize (Hnone i p Hp Hr ltac:(lia)).
           rewrite Hsub' in Hnone by (by apply lookup_lt_Some in Hp). lia.
  - split; [|by eauto]. intros _ i p Hp Hi _.
    apply lookup_lt_Some in Hp. lia.
Qed.

Lemma subscribedInTime_spec now k promises :
  subscribedInTime now k promises = true <->
  forall i p, promises !! i = Some p -> rejects p = true ->
              settlesAt p < now \/ windowBegins now k promises i <= settlesAt p.
Proof.
  unfold subscribedInTime. rewrite forallb_forall. split.
  - intros Hall i p Hp Hr.
    specialize (Hall (i, p)). simpl in Hall. rewrite Hr in Hall. simpl in Hall.
    assert (In (i, p) (imap pair promises)) as Hin.
    { apply list_elem_of_In. by apply (elem_of_lookup_imap_2 pair). }
    apply Hall, orb_true_iff in Hin as [?%Z.ltb_lt|?%Z.leb_le]; lia.
  - intros Hall [i0 p0] Hin. apply list_elem_of_In in Hin.
    apply elem_of_lookup_imap in Hin as (i & p & [= -> ->] & Hp). simpl.
    destruct (rejects p) eqn:Hr; [|done]. simpl. apply orb_true_iff.
    destruct (Hall i p Hp Hr); [left; by apply Z.ltb_lt | right; by apply Z.leb_le].
Qed.

Lemma batchPromiseAllSettledInNode_returns_iff fuel now promises chunkSize :
  0 < chunkSize -> (length promises <= fuel)%nat ->
  (exists st, batchPromiseAllSettledInNode fuel now promises chunkSize
              = Some (Completed st)) <->
  subscribedInTime now (Z.to_nat chunkSize) promises = true.
Proof.
  intros Hk Hfuel. unfold batchPromiseAllSettledInNode.
  destruct (Z.eqb_spec chunkSize 0); [lia|].
  rewrite subscribedInTime_spec.
  pose proof (batchLoopInNode_completes_iff now promises (Z.to_nat chunkSize) fuel 0 []
                (startRun now)) as Hiff.
  rewrite Nat.mul_0_r, Z2Nat.id in Hiff by lia. simpl in Hiff.
  rewrite Hiff; [| lia | by rewrite drop_0 | | done |].
  - split; intros Hall i p Hp; [apply Hall; [done | lia] | intros _; by apply Hall].
  - intros i _. split; [by intros ?%not_elem_of_nil | lia].
  - intros i p _ _ _. lia.
Qed.

Lemma prefix_map {A B : Type} (f : A -> B) (l1 l2 : list A) :
  l1 `prefix_of` l2 -> map f l1 `prefix_of` map f l2.
Proof. intros [k ->]. rewrite map_app. by eexists. Qed.

(** With a positive chunk size and one unit of fuel per operation the call
    ends in Node, by returning or by the end of the process; the waits begun
    are the first windows of the specification, in order; and a call that
    returns has gone through the loop to its end. *)
Lemma batchPromiseAllSettledInNode_positive fuel now promises chunkSize :
  0 < chunkSize -> (length promises <= fuel)%nat ->
  exists e,
    batchPromiseAllSettledInNode fuel now promises chunkSize = Some e /\
    windowsBegun e `prefix_of`
      windows_spec (length promises) (Z.to_nat chunkSize) promises /\
    sequentialFrom now (completedWaits e) /\
    match e with
    | Completed st =>
        st = foldl (fun st w => awaitAllSettled w st) (startRun now)
               (windows_spec (length promises) (Z.to_nat chunkSize) promises)
    | ProcessEnded t st waiting =>
        lastResumed now (awaited st) = clock st /\
        clock st <= t < allSettledAt waiting (clock st)
    end.
Proof.
  intros Hk Hfuel. unfold batchPromiseAllSettledInNode.
  destruct (Z.eqb_spec chunkSize 0); [lia|].
  destruct (batchLoopInNode_total fuel promises chunkSize 0 [] (startRun now))
    as [e He]; [lia..|by rewrite drop_0|].
  pose proof (batchLoop_windows fuel promises chunkSize 0 (startRun now) Hk
                ltac:(lia) ltac:(by rewrite drop_0)) as Hloop.
  rewrite drop_0, (windows_spec_fuel fuel (length promises)) in Hloop by lia.
  destruct (batchLoopInNode_sequential now _ _ _ _ _ _ e (startRun_sequential now) He)
    as [Hseq Hlast].
  exists e. split; [done|]. destruct e as [st|t st waiting].
  - apply batchLoopInNode_completed in He. rewrite Hloop in He. injection He as <-.
    split_and!; [|exact Hseq|reflexivity]. simpl. by rewrite awaits_windows.
  - destruct (batchLoopInNode_ended _ _ _ _ _ _ _ _ _ _ He Hloop) as [Hpre Ht].
    split_and!; [|exact Hseq|exact Hlast|apply Ht..]. apply (prefix_map window) in Hpre.
    rewrite awaits_windows in Hpre. simpl in *. by rewrite map_app in Hpre.
Qed.

(** ** The claims about the batch executor *)

(** C4.  For a positive chunk size the windows of the specification are
    consecutive groups of at most [chunkSize] operations whose concatenation is
    the input.  A call in Node ends, by returning or by the end of the process
    on an unhandled rejection; either way the waits it began are the first
    windows, in order, one wait per window on all its operations; the waits are
    strictly sequential: all operations of a window have settled when its wait
    resumes, and the next wait begins no earlier.  A wait cut short by the end
    of the process had begun when the previous one resumed.  A call that
    returns has waited on every window, and the call returns exactly when no
    operation rejects between the call and the beginning of the wait on its
    window. *)
Theorem batch_windows_sequential fuel now promises chunkSize
    (Hk : 0 < chunkSize) (Hfuel : (length promises <= fuel)%nat) :
  let windows := windows_spec (length promises) (Z.to_nat chunkSize) promises in
  concat windows = promises /\
  Forall (fun w => (0 < length w <= Z.to_nat chunkSize)%nat) windows /\
  exists e,
    batchPromiseAllSettledInNode fuel now promises chunkSize = Some e /\
    windowsBegun e `prefix_of` windows /\
    sequentialFrom now (completedWaits e) /\
    match e with
    | Completed st => map window (awaited st) = windows
    | ProcessEnded t st waiting =>
        lastResumed now (awaited st) = clock st /\
        clock st <= t < allSettledAt waiting (clock st)
    end /\
    ((exists st, e = Completed st) <->
     subscribedInTime now (Z.to_nat chunkSize) promises = true).
Proof.
  intros windows. split; [apply windows_spec_concat; lia|].
  split; [apply windows_spec_sizes; lia|].
  destruct (batchPromiseAllSettledInNode_positive fuel now promises chunkSize Hk Hfuel)
    as (e & He & Hpre & Hseq & Hend).
  exists e. split_and!; [done..| |].
  - destruct e as [st|t st waiting]; [|done].
    rewrite Hend, awaits_windows. done.
  - rewrite <- (batchPromiseAllSettledInNode_returns_iff fuel) by done.
    rewrite He. split; intros [st Hst]; exists st; congruence.
Qed.

(** C5.  The claim fails on [earlyRejection] with chunk size 1: the second
    operation rejects while the executor still waits on the first and has not
    subscribed to the second, the rejection is unhandled and Node ends the
    process, so whatever the fuel the call never returns the two outcomes;
    with chunk size 0 the same operations are all subscribed to at once and
    the call returns both outcomes. *)
Theorem batch_early_rejection_ends_process fuel :
  batchPromiseAllSettledInNode (S fuel) 0 earlyRejection 1 =
    Some (ProcessEnded 10 (startRun 0) [Promise 30 (Fulfilled (JStr "done"))]) /\
  (forall fuel', returned <$> batchPromiseAllSettledInNode fuel' 0 earlyRejection 1
                 <> Some (Some {| resolved := [JStr "done"];
                                  rejected := [JStr "failed"] |})) /\
  returned <$> batchPromiseAllSettledInNode (S fuel) 0 earlyRejection 0 =
    Some (Some {| resolved := [JStr "done"]; rejected := [JStr "failed"] |}).
Proof.
  split_and!; [reflexivity | | reflexivity].
  by intros [|fuel'].
Qed.

(** C7.  A chunk size at least the length of the sequence gives the result
    of chunk size 0; on a non-empty sequence the whole run is the same, a
    single wait on all the operations. *)
Theorem batch_large_chunk_as_zero fuel now promises chunkSize
    (Hk : Z.of_nat (length promises) <= chunkSize) (Hfuel : (1 <= fuel)%nat) :
  batchResult fuel now promises chunkSize = batchResult fuel now promises 0 /\
  (promises <> [] ->
     batchPromiseAllSettled fuel now promises chunkSize =
       batchPromiseAllSettled fuel now promises 0) /\
  (exists st, batchPromiseAllSettled fuel now promises 0 = Some (Returned st) /\
              map window (awaited st) = [promises]).
Proof.
  assert (promises <> [] ->
          batchPromiseAllSettled fuel now promises chunkSize =
          batchPromiseAllSettled fuel now promises 0) as Hrun.
  { intros Hne. unfold batchPromiseAllSettled.
    destruct (Z.eqb_spec chunkSize 0) as [|Hk0]; [done|]. simpl.
    destruct fuel as [|fuel]; [lia|]. cbn [batchLoop].
    destruct (Z.ltb_spec 0 (Z.of_nat (length promises))) as [_|Hlen].
    - rewrite slice_whole by done. by rewrite batchLoop_done by lia.
    - destruct promises; [done | simpl in Hlen; lia]. }
  split; [|split; [done | by eexists]].
  destruct promises as [|p promises].
  - unfold batchResult, batchPromiseAllSettled.
    destruct (Z.eqb_spec chunkSize 0); [done|].
    by rewrite batchLoop_done by (simpl; lia).
  - unfold batchResult. by rewrite Hrun.
Qed.

(** ** The cache wrapper *)

Lemma setNow_now w : setNow (now w) w = w.
Proof. by destruct w. Qed.

Lemma setCache_cache w : setCache (cache w) w = w.
Proof. by destruct w. Qed.

Lemma await_resumes_later x t : t <= (await x t).2.
Proof. destruct x; simpl; lia. Qed.

Lemma await_outcome_any_time x t t' : (await x t).1 = (await x t').1.
Proof. by destruct x. Qed.

Section AsyncCacheProofs.

Variable func : nat -> list jsval -> outcome maybePromise.
Variable ttl : option Z.

Lemma isEntryExpired_spec dateNow t :
  isEntryExpired ttl dateNow t = true <->
  exists m, ttl = Some m /\ dateNow - t > m * (60 * 1000).
Proof.
  unfold isEntryExpired, millisecondsPerMinute. destruct ttl as [m|].
  - rewrite Z.gtb_gt. split; [intros H; by exists m | intros (m' & [= <-] & H); lia].
  - split; [done | by intros (m & ? & _)].
Qed.

Lemma isEntryExpired_later dateNow dateNow' t :
  dateNow <= dateNow' ->
  isEntryExpired ttl dateNow t = true -> isEntryExpired ttl dateNow' t = true.
Proof.
  rewrite !isEntryExpired_spec. intros Hle (m & Hm & Hgt). exists m. split; [done | lia].
Qed.

Lemma freshEntry_Some w args e :
  freshEntry ttl w args = Some e <->
  cache w !! cacheKey args = Some e /\
  isEntryExpired ttl (now w) (timestamp e) = false.
Proof.
  unfold freshEntry. destruct (cache w !! cacheKey args) as [e'|]; [|by split; [|intros []]].
  destruct (isEntryExpired ttl (now w) (timestamp e')) eqn:He.
  - split; [done|]. intros [[= ->] He']. congruence.
  - split; [by intros [= ->] | by intros [[= ->] _]].
Qed.

Lemma freshEntry_None w args :
  freshEntry ttl w args = None <->
  forall e, cache w !! cacheKey args = Some e ->
            isEntryExpired ttl (now w) (timestamp e) = true.
Proof.
  unfold freshEntry. destruct (cache w !! cacheKey args) as [e'|]; [|done].
  destruct (isEntryExpired ttl (now w) (timestamp e')) eqn:He.
  - split; [by intros _ e [= <-] | done].
  - split; [done|]. intros H. specialize (H e' eq_refl). congruence.
Qed.

Lemma memoStart_hit w args e :
  freshEntry ttl w args = Some e ->
  memoStart func ttl w args = (w, CacheHit (value e)).
Proof.
  intros [Hc He]%freshEntry_Some. unfold memoStart. by rewrite Hc, He.
Qed.

Lemma memoStart_miss w args :
  freshEntry ttl w args = None ->
  memoStart func ttl w args =
  (logCall args w,
   match func (length (calls w)) args with
   | Returned x => AwaitFunc (cacheKey args) x
   | Threw e => FuncThrew e
   end).
Proof.
  intros Hf. unfold memoStart.
  destruct (cache w !! cacheKey args) as [e|] eqn:Hc; [|done].
  rewrite freshEntry_None in Hf. by rewrite (Hf e Hc).
Qed.

(** A miss invokes [func] once; the cache is written only when the awaited
    invocation resolves. *)
Lemma memoizedFunc_miss w args :
  freshEntry ttl w args = None ->
  memoizedFunc func ttl w args =
  match func (length (calls w)) args with
  | Returned x =>
      match (await x (now w)).1 with
      | Returned result =>
          (memoResume (setNow (await x (now w)).2 (logCall args w))
             (cacheKey args) result, Returned result)
      | Threw e => (setNow (await x (now w)).2 (logCall args w), Threw e)
      end
  | Threw e => (logCall args w, Threw e)
  end.
Proof.
  intros Hf. unfold memoizedFunc. rewrite memoStart_miss by done.
  destruct (func (length (calls w)) args) as [x|e]; [|done].
  simpl. by destruct (await x (now w)) as [[r|e] t].
Qed.

Lemma memoizedFunc_miss_calls w args :
  freshEntry ttl w args = None ->
  calls (memoizedFunc func ttl w args).1 = calls w ++ [args] /\
  (memoizedFunc func ttl w args).2 = invocationResult func (length (calls w)) args (now w) /\
  now w <= now (memoizedFunc func ttl w args).1.
Proof.
  intros Hf. rewrite memoizedFunc_miss by done. unfold invocationResult.
  destruct (func (length (calls w)) args) as [x|e]; [|simpl; split_and!; done || lia].
  pose proof (await_resumes_later x (now w)).
  by destruct (await x (now w)) as [[r|e] t].
Qed.

Lemma memoizedFunc_hit w args e :
  freshEntry ttl w args = Some e ->
  memoizedFunc func ttl w args =
  (setNow (await (value e) (now w)).2 w, (await (value e) (now w)).1).
Proof.
  intros Hf. unfold memoizedFunc. rewrite (memoStart_hit _ _ _ Hf).
  by destruct (await (value e) (now w)).
Qed.

Lemma memoizedFunc_hit_direct w args e v :
  freshEntry ttl w args = Some e -> value e = Direct v ->
  memoizedFunc func ttl w args = (w, Returned v).
Proof.
  intros Hf Hv. rewrite (memoizedFunc_hit _ _ _ Hf), Hv. simpl.
  by rewrite setNow_now.
Qed.

Lemma not_expired_within dateNow t :
  (forall m, ttl = Some m -> dateNow - t <= m * (60 * 1000)) ->
  isEntryExpired ttl dateNow t = false.
Proof.
  intros Hw. destruct (isEntryExpired ttl dateNow t) eqn:He; [|done].
  apply isEntryExpired_spec in He as (m & Hm & Hgt).
  specialize (Hw m Hm). lia.
Qed.

(** *** The claims about lookups *)

(** C1.  When the cache holds an entry for the key of the arguments and the
    entry is not expired, the call returns what the entry stores and does not
    invoke the wrapped function; the cache is left as it is.  In particular,
    after a call that missed and resolved with [v], a second call with the
    same arguments made within the TTL returns [v] again and the function has
    been invoked once in all. *)
Theorem memoizedFunc_cache_hit :
  (forall w args e,
     freshEntry ttl w args = Some e ->
     calls (memoizedFunc func ttl w args).1 = calls w /\
     cache (memoizedFunc func ttl w args).1 = cache w /\
     (memoizedFunc func ttl w args).2 = (await (value e) (now w)).1 /\
     (forall v, value e = Direct v ->
                memoizedFunc func ttl w args = (w, Returned v))) /\
  (forall w0 args v w1 t2,
     freshEntry ttl w0 args = None ->
     memoizedFunc func ttl w0 args = (w1, Returned v) ->
     (forall m, ttl = Some m -> t2 - now w1 <= m * (60 * 1000)) ->
     memoizedFunc func ttl (setNow t2 w1) args = (setNow t2 w1, Returned v) /\
     calls (memoizedFunc func ttl (setNow t2 w1) args).1 = calls w0 ++ [args]).
Proof.
  split.
  - intros w args e Hf. rewrite (memoizedFunc_hit _ _ _ Hf). simpl.
    split_and!; [done..|]. intros v Hv.
    rewrite <- (memoizedFunc_hit _ _ _ Hf). by apply memoizedFunc_hit_direct with e.
  - intros w0 args v w1 t2 Hmiss Hfirst Hwithin.
    rewrite memoizedFunc_miss in Hfirst by done.
    destruct (func (length (calls w0)) args) as [x|e]; [|done].
    destruct (await x (now w0)) as [[r|e] t] eqn:Hawait; simpl in Hfirst; [|done].
    injection Hfirst as <- <-.
    assert (freshEntry ttl
              (setNow t2 (memoResume (setNow t (logCall args w0)) (cacheKey args) r))
              args = Some {| timestamp := t; value := Direct r |}) as Hf.
    { apply freshEntry_Some. simpl. rewrite lookup_insert_eq. split; [done|].
      apply not_expired_within. exact Hwithin. }
    rewrite (memoizedFunc_hit_direct _ _ _ r Hf) by done. done.
Qed.

(** C2.  When a call invokes the wrapped function and the invocation fails
    (the function throws, or the promise it returns rejects), the call fails
    with the same reason and the cache map is exactly what it was.  A later
    call with the same arguments therefore finds no fresh entry, invokes the
    function again, and ends as that new invocation ends. *)
Theorem memoizedFunc_failure_not_cached w args e
    (Hmiss : freshEntry ttl w args = None)
    (Hfail : invocationResult func (length (calls w)) args (now w) = Threw e) :
  (memoizedFunc func ttl w args).2 = Threw e /\
  cache (memoizedFunc func ttl w args).1 = cache w /\
  calls (memoizedFunc func ttl w args).1 = calls w ++ [args] /\
  (forall t2, now (memoizedFunc func ttl w args).1 <= t2 ->
     let w2 := setNow t2 (memoizedFunc func ttl w args).1 in
     freshEntry ttl w2 args = None /\
     calls (memoizedFunc func ttl w2 args).1 = calls w ++ [args; args] /\
     (memoizedFunc func ttl w2 args).2 =
       invocationResult func (S (length (calls w))) args t2).
Proof.
  destruct (memoizedFunc_miss_calls w args Hmiss) as (Hcalls & Hres & Hnow).
  assert (cache (memoizedFunc func ttl w args).1 = cache w) as Hcache.
  { rewrite memoizedFunc_miss by done. unfold invocationResult in Hfail.
    destruct (func (length (calls w)) args) as [x|e']; [|done].
    by destruct (await x (now w)) as [[r|e'] t]. }
  split_and!; [congruence|done|done|].
  intros t2 Ht2 w2.
  assert (freshEntry ttl w2 args = None) as Hmiss2.
  { apply freshEntry_None. intros e2 He2. subst w2. simpl in *.
    rewrite Hcache in He2. rewrite freshEntry_None in Hmiss.
    apply isEntryExpired_later with (now w); [lia|]. by apply Hmiss. }
  destruct (memoizedFunc_miss_calls w2 args Hmiss2) as (Hcalls2 & Hres2 & _).
  split_and!; [done| |].
  - rewrite Hcalls2. subst w2. simpl. rewrite Hcalls. by rewrite <- app_assoc.
  - rewrite Hres2. subst w2. simpl. rewrite Hcalls, length_app. simpl.
    by replace (length (calls w) + 1)%nat with (S (length (calls w))) by lia.
Qed.

(** C3.  An entry is expired exactly when a TTL is configured and the time
    since its timestamp strictly exceeds the TTL in milliseconds: at an age
    equal to the TTL it is not expired, and without a TTL nothing expires.  A
    lookup that finds an expired entry invokes the wrapped function again, and
    when that invocation resolves the entry is replaced by one that holds the
    new result under the timestamp of that moment. *)
Theorem entry_expiry :
  (forall dateNow t,
     isEntryExpired ttl dateNow t = true <->
     exists m, ttl = Some m /\ dateNow - t > m * (60 * 1000)) /\
  (forall m t, ttl = Some m -> isEntryExpired ttl (t + m * (60 * 1000)) t = false) /\
  (ttl = None -> forall dateNow t, isEntryExpired ttl dateNow t = false) /\
  (forall w args e,
     cache w !! cacheKey args = Some e ->
     isEntryExpired ttl (now w) (timestamp e) = true ->
     calls (memoizedFunc func ttl w args).1 = calls w ++ [args] /\
     (memoizedFunc func ttl w args).2 =
       invocationResult func (length (calls w)) args (now w) /\
     (forall v, (memoizedFunc func ttl w args).2 = Returned v ->
        cache (memoizedFunc func ttl w args).1 =
        <[cacheKey args := {| timestamp := now (memoizedFunc func ttl w args).1;
                              value := Direct v |}]> (cache w))).
Proof.
  split_and!.
  - apply isEntryExpired_spec.
  - intros m t Hm. apply not_expired_within. intros m' Hm'.
    rewrite Hm in Hm'. injection Hm' as <-. lia.
  - intros Hnone dateNow t. apply not_expired_within. intros m Hm. congruence.
  - intros w args e Hc He.
    assert (freshEntry ttl w args = None) as Hmiss.
    { apply freshEntry_None. intros e' He'. congruence. }
    destruct (memoizedFunc_miss_calls w args Hmiss) as (Hcalls & Hres & _).
    split_and!; [done..|].
    rewrite memoizedFunc_miss by done.
    destruct (func (length (calls w)) args) as [x|e']; [|done].
    destruct (await x (now w)) as [[r|e'] t]; simpl; [|done].
    by intros v [= ->].
Qed.

(** C9.  [deleteCache] derives its key as [memoizedFunc] does, removes the
    entry under that key and nothing else: the entry of any arguments with
    another key, and every other entry, stay as they were; when the key has no
    entry the state is unchanged.  No error can result. *)
Theorem deleteCache_frame w a1 :
  cache (deleteCache w a1) !! cacheKey a1 = None /\
  freshEntry ttl (deleteCache w a1) a1 = None /\
  (forall a2, cacheKey a2 <> cacheKey a1 ->
     cache (deleteCache w a1) !! cacheKey a2 = cache w !! cacheKey a2) /\
  (forall key, key <> cacheKey a1 ->
     cache (deleteCache w a1) !! key = cache w !! key) /\
  (cache w !! cacheKey a1 = None -> deleteCache w a1 = w) /\
  now (deleteCache w a1) = now w /\
  calls (deleteCache w a1) = calls w.
Proof.
  unfold deleteCache, freshEntry. simpl. rewrite lookup_delete_eq.
  split_and!; try done.
  - intros a2 Hne. by rewrite lookup_delete_ne.
  - intros key Hne. by rewrite lookup_delete_ne.
  - intros Hnone. rewrite delete_id by done. apply setCache_cache.
Qed.

(** *** Reachable states *)

Lemma memoStart_inv w args w1 susp :
  memoStart func ttl w args = (w1, susp) ->
  (w1 = w /\ exists e, freshEntry ttl w args = Some e /\ susp = CacheHit (value e)) \/
  (w1 = logCall args w /\ freshEntry ttl w args = None /\
   match func (length (calls w)) args with
   | Returned x => susp = AwaitFunc (cacheKey args) x
   | Threw e => susp = FuncThrew e
   end).
Proof.
  destruct (freshEntry ttl w args) as [e|] eqn:Hf.
  - rewrite (memoStart_hit _ _ _ Hf). intros [= <- <-]. left. eauto.
  - rewrite (memoStart_miss _ _ Hf). intros [= <- <-]. right.
    split_and!; [done..|]. by destruct (func (length (calls w)) args).
Qed.

Lemma resolvedBy_calls w w' key result :
  (forall i a, calls w !! i = Some a -> calls w' !! i = Some a) ->
  resolvedBy func w key result -> resolvedBy func w' key result.
Proof.
  intros Hsub (i & args & x & t & t' & Hi & Hk & Hf & Ha).
  exists i, args, x, t, t'. eauto.
Qed.

Lemma inflightLogged_calls w w' call :
  (forall i a, calls w !! i = Some a -> calls w' !! i = Some a) ->
  inflightLogged func w call -> inflightLogged func w' call.
Proof.
  intros Hsub (i & args & Hi & Hk & Hf). exists i, args. eauto.
Qed.

Lemma entriesAwaited_sub w w' :
  (forall key e, cache w' !! key = Some e -> cache w !! key = Some e) ->
  (forall i a, calls w !! i = Some a -> calls w' !! i = Some a) ->
  entriesAwaited func w -> entriesAwaited func w'.
Proof.
  intros Hc Hl Hinv key e He.
  destruct (Hinv key e (Hc _ _ He)) as (result & Hv & Hr).
  exists result. split; [done|]. by apply resolvedBy_calls with w.
Qed.

Lemma calls_logCall w args i a :
  calls w !! i = Some a -> calls (logCall args w) !! i = Some a.
Proof. simpl. apply lookup_app_l_Some. Qed.

(** Every step keeps the entries awaited and the suspended calls logged. *)
Lemma step_invariant c c' :
  step func ttl c c' ->
  entriesAwaited func c.1 /\ Forall (inflightLogged func c.1) c.2 ->
  entriesAwaited func c'.1 /\ Forall (inflightLogged func c'.1) c'.2.
Proof.
  intros Hstep [Hent Hfl].
  destruct Hstep as
    [w fl d Hd | w fl args stored Hs | w fl args w1 key pending Hs
    | w fl args w1 e Hs | w fl1 fl2 key pending result t Hset Ha
    | w fl1 fl2 key pending e t Hset Ha | w fl args | w fl]; simpl in *.
  - split; [by apply entriesAwaited_sub with w|].
    eapply Forall_impl; [exact Hfl|]. intros call. by apply inflightLogged_calls.
  - done.
  - apply memoStart_inv in Hs as [[_ (e & _ & [=])]|(-> & Hmiss & Hf)].
    destruct (func (length (calls w)) args) as [x|e] eqn:Hfunc; [|done].
    injection Hf as -> ->.
    split; [apply entriesAwaited_sub with w; [done| |done]; apply calls_logCall|].
    apply Forall_app. split.
    + eapply Forall_impl; [exact Hfl|]. intros call.
      apply inflightLogged_calls, calls_logCall.
    + constructor; [|constructor].
      exists (length (calls w)), args. simpl.
      split_and!; [|done..]. by rewrite lookup_app_r, Nat.sub_diag by lia.
  - apply memoStart_inv in Hs as [[_ (e' & _ & [=])]|(-> & Hmiss & Hf)].
    split; [apply entriesAwaited_sub with w; [done| |done]; apply calls_logCall|].
    eapply Forall_impl; [exact Hfl|]. intros call.
    apply inflightLogged_calls, calls_logCall.
  - apply Forall_app in Hfl as [Hfl1 Hfl2].
    apply Forall_cons in Hfl2 as [Hcall Hfl2].
    split.
    + intros key' e'. simpl. destruct (decide (key = key')) as [<-|Hne].
      * rewrite lookup_insert_eq. intros [= <-]. exists result. split; [done|].
        destruct Hcall as (i & args & Hi & Hk & Hf). simpl in *.
        exists i, args, pending, (now w), t. done.
      * rewrite lookup_insert_ne by done. intros He'.
        destruct (Hent key' e' He') as (r & Hv & Hr). exists r. split; [done|].
        by apply resolvedBy_calls with w.
    + apply Forall_app. split; (eapply Forall_impl; [eassumption|]);
        intros call; by apply inflightLogged_calls.
  - apply Forall_app in Hfl as [Hfl1 Hfl2].
    apply Forall_cons in Hfl2 as [_ Hfl2].
    split; [done|]. by apply Forall_app.
  - split.
    + apply entriesAwaited_sub with w; [|done|done]. simpl.
      intros key e He. by apply lookup_delete_Some in He as [_ He].
    + eapply Forall_impl; [exact Hfl|]. intros call. by apply inflightLogged_calls.
  - split.
    + intros key e. simpl. by rewrite lookup_empty.
    + eapply Forall_impl; [exact Hfl|]. intros call. by apply inflightLogged_calls.
Qed.

Lemma reachable_invariant c :
  reachable func ttl c ->
  entriesAwaited func c.1 /\ Forall (inflightLogged func c.1) c.2.
Proof.
  induction 1 as [t0|c c' _ IH Hstep].
  - split; [|constructor]. intros key e. simpl. by rewrite lookup_empty.
  - by apply step_invariant with c.
Qed.

(** A call that runs to completion is a sequence of steps: reachable states
    are closed under [memoizedFunc]. *)
Lemma reachable_memoizedFunc w fl args :
  reachable func ttl (w, fl) ->
  reachable func ttl ((memoizedFunc func ttl w args).1, fl).
Proof.
  intros Hr.
  assert (forall t, now w <= t -> reachable func ttl (setNow t w, fl)) as Htick.
  { intros t Ht. replace t with (now w + (t - now w)) by lia.
    eapply reachable_step; [exact Hr|]. apply step_tick. lia. }
  destruct (freshEntry ttl w args) as [e|] eqn:Hf.
  - rewrite (memoizedFunc_hit _ _ _ Hf). simpl.
    apply Htick, await_resumes_later.
  - rewrite memoizedFunc_miss by done.
    pose proof (memoStart_miss w args Hf) as Hs.
    destruct (func (length (calls w)) args) as [x|e] eqn:Hfunc.
    + assert (reachable func ttl (logCall args w, fl ++ [(cacheKey args, x)])) as Hr1.
      { eapply reachable_step; [exact Hr|]. by eapply step_invoke. }
      assert (reachable func ttl
                (setNow (await x (now w)).2 (logCall args w),
                 fl ++ [(cacheKey args, x)])) as Hr2.
      { pose proof (await_resumes_later x (now w)).
        replace (await x (now w)).2
          with (now (logCall args w) + ((await x (now w)).2 - now w))
          by (simpl; lia).
        eapply reachable_step; [exact Hr1|]. apply step_tick. lia. }
      assert (settledBy (await x (now w)).2 x) as Hset.
      { destruct x; simpl; [done | lia]. }
      destruct (await x (now w)) as [[r|e] t] eqn:Ha; simpl in *.
      * rewrite <- (app_nil_r fl).
        eapply reachable_step; [exact Hr2|].
        eapply (step_resume _ _ _ fl [] _ x r t); [done|].
        simpl. destruct x as [v|p]; simpl in *; [congruence|].
        injection Ha as Ha <-. rewrite Ha. f_equal. lia.
      * rewrite <- (app_nil_r fl).
        eapply reachable_step; [exact Hr2|].
        eapply (step_reject _ _ _ fl [] _ x e t); [done|].
        simpl. destruct x as [v|p]; simpl in *; [congruence|].
        injection Ha as Ha <-. rewrite Ha. f_equal. lia.
    + eapply reachable_step; [exact Hr|]. by eapply step_invoke_threw.
Qed.

(** C10.  In every state the wrapper can reach, through any interleaving of
    calls, resumptions, deletions, clears and the passing of time, each cache
    entry stores an awaited value: a direct value that an earlier invocation
    of the wrapped function, made with arguments of that key, resolved to;
    never a pending operation.  A cache hit therefore returns such a resolved
    value, leaves the state alone, and cannot end in a rejection. *)
Theorem cache_holds_awaited_values c (Hreach : reachable func ttl c) :
  entriesAwaited func c.1 /\
  (forall key e, cache c.1 !! key = Some e -> forall p, value e <> Pending p) /\
  (forall args e, freshEntry ttl c.1 args = Some e ->
     exists v, value e = Direct v /\
               resolvedBy func c.1 (cacheKey args) v /\
               memoizedFunc func ttl c.1 args = (c.1, Returned v)).
Proof.
  destruct (reachable_invariant c Hreach) as [Hent _].
  split_and!; [done| |].
  - intros key e He p Hp. destruct (Hent key e He) as (v & Hv & _). congruence.
  - intros args e Hf. pose proof Hf as [Hc _]%freshEntry_Some.
    destruct (Hent _ _ Hc) as (v & Hv & Hr). exists v.
    split_and!; [done..|]. by apply memoizedFunc_hit_direct with e.
Qed.

End AsyncCacheProofs.

(** ** Keys and structural equality *)

Lemma pairwise_Forall2 {A B : Type} (f : A -> B -> bool) l k :
  pairwise f l k = true <-> Forall2 (fun a b => f a b = true) l k.
Proof.
  revert k. induction l as [|a l IH]; intros [|b k]; simpl.
  - split; [constructor | done].
  - split; [done | inversion 1].
  - split; [done | inversion 1].
  - rewrite andb_true_iff, IH. split.
    + intros [? ?]. by constructor.
    + inversion 1; by subst.
Qed.

Lemma ownProperty_unique props k w :
  NoDup (map fst props) -> (k, w) ∈ props -> ownProperty k props = Some w.
Proof.
  induction props as [|[k' v'] props IH]; intros Hnd Hin.
  - by apply not_elem_of_nil in Hin.
  - simpl in *. apply NoDup_cons in Hnd as [Hk' Hnd].
    apply elem_of_cons in Hin as [[= -> ->]|Hin].
    + by rewrite String.eqb_refl.
    + destruct (String.eqb_spec k k') as [->|Hne]; [|by apply IH].
      exfalso. apply Hk'. apply list_elem_of_fmap. by exists (k', w).
Qed.

(** A safe integer is determined by its value. *)
Lemma Int_eq a b sa sb : a = b -> Int a sa = Int b sb.
Proof. intros ->. f_equal. apply proof_irrel. Qed.

Lemma sameNumber_eq x y : sameNumber x y = true <-> x = y.
Proof.
  split.
  - destruct x, y; simpl; try done. intros ?%Z.eqb_eq. by apply Int_eq.
  - intros <-. destruct x; simpl; [done..|]. apply Z.eqb_refl.
Qed.

(** Deep-equal values that list their properties in the same order are the
    same structure. *)
Lemma deepEqual_same_order a :
  forall b, uniqueKeys b = true -> deepEqual a b = true ->
            sameKeyOrder a b = true -> a = b.
Proof.
  induction a as [| |x|x|x|xs IH|ps IH] using jsval_nested_ind;
    intros [| |y|y|y|ys|qs] Hu Hd Ho; simpl in *; try done.
  - f_equal. by apply Bool.eqb_prop.
  - f_equal. by apply sameNumber_eq.
  - f_equal. by apply String.eqb_eq.
  - f_equal. apply pairwise_Forall2 in Hd, Ho.
    apply Is_true_true_2, forallb_True in Hu.
    revert ys Hu Hd Ho. induction IH as [|x xs Hx _ IHxs]; intros ys Hu Hd Ho.
    + by inversion Hd.
    + inversion Hd as [|? y ? ys' Hxy Hd']; subst.
      inversion Ho as [|? ? ? ? Oxy Ho']; subst.
      apply Forall_cons in Hu as [Hy Hu].
      f_equal; [apply Hx; [by apply Is_true_true_1 | done | done] | by apply IHxs].
  - f_equal.
    apply andb_true_iff in Hu as [Hnd Hu]. apply bool_decide_eq_true in Hnd.
    apply Is_true_true_2, forallb_True in Hu.
    apply andb_true_iff in Hd as [_ Hd]. apply Is_true_true_2, forallb_True in Hd.
    apply pairwise_Forall2 in Ho.
    set (full := qs) in Hnd, Hu, Hd.
    assert (forall q, q ∈ qs -> q ∈ full) as Hsub by done.
    clearbody full. revert Hd IH Hsub.
    induction Ho as [|[k v] [k' w] ps qs Hhead Ho IHo]; intros Hd IH Hsub; [done|].
    simpl in Hhead. apply andb_true_iff in Hhead as [Hk Hvw].
    apply String.eqb_eq in Hk as <-.
    apply Forall_cons in Hd as [Hd1 Hd]. apply Forall_cons in IH as [IH1 IH].
    simpl in Hd1, IH1.
    assert ((k, w) ∈ full) as Hin by (apply Hsub; left).
    rewrite (ownProperty_unique _ _ _ Hnd Hin) in Hd1.
    assert (uniqueKeys w = true) as Huw.
    { rewrite Forall_forall in Hu. apply Is_true_true_1. exact (Hu _ Hin). }
    f_equal.
    + f_equal. apply IH1; [done | by apply Is_true_true_1 | done].
    + apply IHo; [done..|]. intros q Hq. apply Hsub. by right.
Qed.

(** C8.  No configuration is validated.  A batch call with a negative chunk
    size is never rejected, and on the empty sequence it returns empty
    [resolved] and [rejected]; a wrapper built with any TTL of its type serves
    its first call by invoking the wrapped function. *)
Theorem invalid_configuration_not_rejected
    func ttl t0 args fuel now promises chunkSize (Hk : chunkSize < 0) :
  batchResult fuel now [] chunkSize =
    Some (Returned {| resolved := []; rejected := [] |}) /\
  ~ failsFast (batchPromiseAllSettled fuel now promises chunkSize) /\
  calls (memoizedFunc func ttl (asyncCache t0) args).1 = [args].
Proof.
  split_and!.
  - unfold batchResult, batchPromiseAllSettled.
    destruct (Z.eqb_spec chunkSize 0); [lia|].
    by rewrite batchLoop_done by (simpl; lia).
  - intros [e He]. unfold batchPromiseAllSettled in He.
    destruct (Z.eqb_spec chunkSize 0); [done|].
    by destruct (batchLoop fuel promises chunkSize 0 (startRun now)).
  - by destruct (memoizedFunc_miss_calls func ttl (asyncCache t0) args) as [-> _].
Qed.

(** ** Counterexamples to the claims as stated *)

(** C6 as stated fails: [argsAB] and [argsBA] are structurally equal, yet
    their keys differ. *)
Lemma cacheKey_property_order_counterexample :
  deepEqual (JArr argsAB) (JArr argsBA) = true /\
  cacheKey argsAB <> cacheKey argsBA.
Proof. split; [reflexivity | vm_compute; discriminate]. Qed.

(** C8 as stated fails: with chunk size -1 and no operations the call
    returns normally, and with the four documented operations it is never
    rejected either. *)
Lemma negative_chunk_counterexample :
  batchResult 0 0 [] (-1) = Some (Returned {| resolved := []; rejected := [] |}) /\
  ~ failsFast (batchResult 0 0 [] (-1)) /\
  (forall fuel, ~ failsFast (batchResult fuel 0 exampleOps (-1))).
Proof.
  split; [reflexivity|]. split; [by intros [e He]|].
  intros fuel [e He]. unfold batchResult in He.
  by rewrite batchPromiseAllSettled_negative_runs_on in He.
Qed.

(** ** The documented scenario *)

Example batch_documented_scenario :
  batchResult 2 0 exampleOps 2 =
  Some (Returned
          {| resolved := [JStr "Resolved after 1000ms"; JStr "Resolved after 1500ms"];
             rejected := [JStr "Rejected after 2000ms"; JStr "Rejected after 3000ms"] |}).
Proof. reflexivity. Qed.

(** In Node the documented operations are returned too: none of them
    rejects before the wait on its window begins.  The operations of
    [earlyRejection] are returned with chunk size 2 and end the process with
    chunk size 1. *)
Example batch_documented_scenario_in_Node :
  returned <$> batchPromiseAllSettledInNode 2 0 exampleOps 2 =
    Some (Some
            {| resolved := [JStr "Resolved after 1000ms"; JStr "Resolved after 1500ms"];
               rejected := [JStr "Rejected after 2000ms"; JStr "Rejected after 3000ms"] |}) /\
  subscribedInTime 0 2 exampleOps = true /\
  returned <$> batchPromiseAllSettledInNode 2 0 earlyRejection 2 =
    Some (Some {| resolved := [JStr "done"]; rejected := [JStr "failed"] |}) /\
  subscribedInTime 0 1 earlyRejection = false /\
  returned <$> batchPromiseAllSettledInNode 2 0 earlyRejection 1 = Some None.
Proof. split_and!; reflexivity. Qed.

Example batch_negative_chunk_still_running :
  batchResult 1000 0 exampleOps (-1) = None.
Proof. reflexivity. Qed.

(** With a TTL of one minute, calls at 0 s and at 61 s invoke the wrapped
    function twice; calls at 0 s and at 60 s invoke it once. *)
Example expiry_triggers_recomputation :
  let w1 := (memoizedFunc countingFunc (Some 1) (asyncCache 0) urlArgs).1 in
  memoizedFunc countingFunc (Some 1) (setNow 61000 w1) urlArgs =
    ({| cache := {[ cacheKey urlArgs := {| timestamp := 61000; value := Direct (JNum (Int 1 I)) |} ]};
        now := 61000; calls := [urlArgs; urlArgs] |}, Returned (JNum (Int 1 I))) /\
  memoizedFunc countingFunc (Some 1) (setNow 60000 w1) urlArgs =
    ({| cache := {[ cacheKey urlArgs := {| timestamp := 0; value := Direct (JNum (Int 0 I)) |} ]};
        now := 60000; calls := [urlArgs] |}, Returned (JNum (Int 0 I))).
Proof. split; vm_compute; reflexivity. Qed.

(** Without a TTL, calls at 0 ms and at 10^9 ms invoke it once. *)
Example no_ttl_never_expires :
  let w1 := (memoizedFunc countingFunc None (asyncCache 0) urlArgs).1 in
  calls (memoizedFunc countingFunc None (setNow (10 ^ 9) w1) urlArgs).1 = [urlArgs] /\
  (memoizedFunc countingFunc None (setNow (10 ^ 9) w1) urlArgs).2 = Returned (JNum (Int 0 I)).
Proof. split; vm_compute; reflexivity. Qed.

(** A rejection is not cached: the first call fails and leaves the cache
    empty, the second call invokes the function again and stores its result. *)
Example failed_call_is_retried :
  let first := memoizedFunc flakyFunc (Some 5) (asyncCache 0) urlArgs in
  first = ({| cache := ∅; now := 50; calls := [urlArgs] |}, Threw (JStr "unavailable")) /\
  memoizedFunc flakyFunc (Some 5) first.1 urlArgs =
    ({| cache := {[ cacheKey urlArgs := {| timestamp := 120; value := Direct (JStr "data") |} ]};
        now := 120; calls := [urlArgs; urlArgs] |}, Returned (JStr "data")).
Proof. split; vm_compute; reflexivity. Qed.

(** Two overlapping calls with the same arguments: the second starts before
    the first has resumed, so both invoke the wrapped function. *)
Example overlapping_calls_both_invoke :
  let '(w1, s1) := memoStart flakyFunc None (asyncCache 0) urlArgs in
  let '(w2, s2) := memoStart flakyFunc None w1 urlArgs in
  calls w2 = [urlArgs; urlArgs] /\
  s2 = AwaitFunc (cacheKey urlArgs) (Pending (Promise 120 (Fulfilled (JStr "data")))).
Proof. split; vm_compute; reflexivity. Qed.

(** ** The theorems at concrete inputs *)

Lemma batch_windows_sequential_witness :
  0 < 2 /\ (length exampleOps <= 4)%nat /\
  exists e,
    batchPromiseAllSettledInNode 4 0 exampleOps 2 = Some e /\
    windowsBegun e `prefix_of`
      windows_spec (length exampleOps) (Z.to_nat 2) exampleOps /\
    sequentialFrom 0 (completedWaits e) /\
    ((exists st, e = Completed st) <->
     subscribedInTime 0 (Z.to_nat 2) exampleOps = true).
Proof.
  split; [lia|]. split; [simpl; lia|].
  destruct (batch_windows_sequential 4 0 exampleOps 2)
    as (_ & _ & e & He & Hpre & Hseq & _ & Hiff); [lia | simpl; lia |].
  exists e. split; [exact He|]. split; [exact Hpre|]. split; [exact Hseq | exact Hiff].
Defined.

Lemma batch_large_chunk_as_zero_witness :
  Z.of_nat (length exampleOps) <= 5 /\ (1 <= 1)%nat /\
  batchResult 1 0 exampleOps 5 = batchResult 1 0 exampleOps 0.
Proof.
  split; [simpl; lia|]. split; [lia|].
  apply (batch_large_chunk_as_zero 1 0 exampleOps 5); [simpl; lia | lia].
Defined.

Lemma memoizedFunc_cache_hit_witness :
  let w := {| cache := {[ cacheKey urlArgs := {| timestamp := 0; value := Direct (JNum (Int 7 I)) |} ]};
              now := 60000; calls := [] |} in
  let w1 := (memoizedFunc countingFunc (Some 1) (asyncCache 0) urlArgs).1 in
  (freshEntry (Some 1) w urlArgs = Some {| timestamp := 0; value := Direct (JNum (Int 7 I)) |} /\
   memoizedFunc countingFunc (Some 1) w urlArgs = (w, Returned (JNum (Int 7 I)))) /\
  (freshEntry (Some 1) (asyncCache 0) urlArgs = None /\
   memoizedFunc countingFunc (Some 1) (asyncCache 0) urlArgs = (w1, Returned (JNum (Int 0 I))) /\
   memoizedFunc countingFunc (Some 1) (setNow 59999 w1) urlArgs =
     (setNow 59999 w1, Returned (JNum (Int 0 I))) /\
   calls (memoizedFunc countingFunc (Some 1) (setNow 59999 w1) urlArgs).1 = [] ++ [urlArgs]).
Proof.
  intros w w1.
  destruct (memoizedFunc_cache_hit countingFunc (Some 1)) as [Hhit Htwice].
  assert (freshEntry (Some 1) w urlArgs
          = Some {| timestamp := 0; value := Direct (JNum (Int 7 I)) |}) as Hfresh
    by (vm_compute; reflexivity).
  assert (freshEntry (Some 1) (asyncCache 0) urlArgs = None) as Hmiss
    by (vm_compute; reflexivity).
  assert (memoizedFunc countingFunc (Some 1) (asyncCache 0) urlArgs
          = (w1, Returned (JNum (Int 0 I)))) as Hfirst
    by (vm_compute; reflexivity).
  split; [split; [exact Hfresh|]|split; [exact Hmiss|split; [exact Hfirst|]]].
  - exact (proj2 (proj2 (proj2 (Hhit w urlArgs _ Hfresh))) (JNum (Int 7 I)) eq_refl).
  - apply (Htwice (asyncCache 0) urlArgs (JNum (Int 0 I)) w1 59999 Hmiss Hfirst).
    intros m Hm. injection Hm as <-. vm_compute. discriminate.
Defined.

Lemma memoizedFunc_failure_not_cached_witness :
  let w := asyncCache 0 in
  freshEntry None w urlArgs = None /\
  invocationResult flakyFunc (length (calls w)) urlArgs (now w) = Threw (JStr "unavailable") /\
  (memoizedFunc flakyFunc None w urlArgs).2 = Threw (JStr "unavailable") /\
  cache (memoizedFunc flakyFunc None w urlArgs).1 = cache w.
Proof.
  intros w.
  assert (freshEntry None w urlArgs = None) as Hmiss by (vm_compute; reflexivity).
  assert (invocationResult flakyFunc (length (calls w)) urlArgs (now w)
          = Threw (JStr "unavailable")) as Hfail by reflexivity.
  split; [exact Hmiss|]. split; [exact Hfail|].
  pose proof (memoizedFunc_failure_not_cached flakyFunc None w urlArgs _ Hmiss Hfail)
    as (H1 & H2 & _).
  split; [exact H1 | exact H2].
Defined.

Lemma entry_expiry_witness :
  let e := {| timestamp := 0; value := Direct (JNum (Int 7 I)) |} in
  let w := {| cache := {[ cacheKey urlArgs := e ]}; now := 61000; calls := [] |} in
  cache w !! cacheKey urlArgs = Some e /\
  isEntryExpired (Some 1) (now w) (timestamp e) = true /\
  isEntryExpired (Some 1) (0 + 1 * (60 * 1000)) 0 = false /\
  calls (memoizedFunc countingFunc (Some 1) w urlArgs).1 = calls w ++ [urlArgs].
Proof.
  intros e w.
  destruct (entry_expiry countingFunc (Some 1)) as (_ & Hedge & _ & Hlookup).
  assert (cache w !! cacheKey urlArgs = Some e) as Hc by (vm_compute; reflexivity).
  assert (isEntryExpired (Some 1) (now w) (timestamp e) = true) as He by reflexivity.
  split; [exact Hc|]. split; [exact He|].
  split; [exact (Hedge 1 0 eq_refl)|].
  exact (proj1 (Hlookup w urlArgs e Hc He)).
Defined.

Lemma deleteCache_frame_witness :
  let e := {| timestamp := 0; value := Direct (JNum (Int 7 I)) |} in
  let w := {| cache := {[ cacheKey urlArgs := e ]}; now := 10; calls := [] |} in
  cacheKey urlArgs <> cacheKey [] /\
  cache (deleteCache w []) !! cacheKey urlArgs = cache w !! cacheKey urlArgs /\
  cache w !! cacheKey [] = None /\
  deleteCache w [] = w.
Proof.
  intros e w.
  destruct (deleteCache_frame None w []) as (_ & _ & Hother & _ & Hnoop & _).
  assert (cacheKey urlArgs <> cacheKey []) as Hne by (vm_compute; discriminate).
  assert (cache w !! cacheKey [] = None) as Hnone by (vm_compute; reflexivity).
  split; [exact Hne|]. split; [exact (Hother urlArgs Hne)|].
  split; [exact Hnone | exact (Hnoop Hnone)].
Defined.

Lemma cache_holds_awaited_values_witness :
  let c := ((memoizedFunc flakyFunc None
               (memoizedFunc flakyFunc None (asyncCache 0) urlArgs).1 urlArgs).1,
            @nil (string * maybePromise)) in
  reachable flakyFunc None c /\ entriesAwaited flakyFunc c.1.
Proof.
  intros c.
  assert (reachable flakyFunc None c) as Hreach.
  { apply reachable_memoizedFunc, reachable_memoizedFunc, reachable_init. }
  split; [exact Hreach|].
  exact (proj1 (cache_holds_awaited_values flakyFunc None c Hreach)).
Defined.

Lemma invalid_configuration_not_rejected_witness :
  -1 < 0 /\
  batchResult 3 0 [] (-1) = Some (Returned {| resolved := []; rejected := [] |}) /\
  ~ failsFast (batchPromiseAllSettled 3 0 exampleOps (-1)) /\
  calls (memoizedFunc countingFunc (Some (-5)) (asyncCache 0) urlArgs).1 = [urlArgs].
Proof.
  split; [lia|].
  apply (invalid_configuration_not_rejected countingFunc (Some (-5)) 0 urlArgs
           3 0 exampleOps (-1)).
  lia.
Defined.

(** * Further properties of [src/async-data.ts] *)

(** ** The batch executor: what the chunk size changes and what it does not *)

Lemma awaitAllSettled_whole now promises :
  finalResults (awaitAllSettled promises (startRun now)) =
    {| resolved := fulfilledValues (map settlement promises);
       rejected := rejectedReasons (map settlement promises) |} /\
  clock (awaitAllSettled promises (startRun now)) = allSettledAt promises now.
Proof. split; [|done]. cbn [awaitAllSettled finalResults]. by rewrite pushResults_spec. Qed.

(** X1.  The chunk size changes neither what a call returns nor when.  For
    every non-negative chunk size, a call that returns in Node returns the
    values of all the fulfilled operations and the reasons of all the rejected
    ones, each in input order (so the two lengths add up to the number of
    operations), at the instant at which the last operation has settled, or at
    once when they all have.  The call returns exactly when the chunk size is
    0 or no operation rejects between the call and the beginning of the wait
    on its window; otherwise the process is ended first. *)
Theorem batch_chunk_size_changes_no_result fuel now promises chunkSize
    (Hk : 0 <= chunkSize) (Hfuel : (length promises <= fuel)%nat) :
  (forall st,
     batchPromiseAllSettledInNode fuel now promises chunkSize = Some (Completed st) ->
     finalResults st =
       {| resolved := fulfilledValues (map settlement promises);
          rejected := rejectedReasons (map settlement promises) |} /\
     (length (resolved (finalResults st)) + length (rejected (finalResults st))
      = length promises)%nat /\
     clock st = allSettledAt promises now) /\
  ((exists st,
      batchPromiseAllSettledInNode fuel now promises chunkSize = Some (Completed st)) <->
   chunkSize = 0 \/ subscribedInTime now (Z.to_nat chunkSize) promises = true).
Proof.
  assert (forall st,
    batchPromiseAllSettledInNode fuel now promises chunkSize = Some (Completed st) ->
    finalResults st = finalResults (awaitAllSettled promises (startRun now)) /\
    clock st = allSettledAt promises now) as Hsame.
  { intros st Hrun. destruct (Z.eq_dec chunkSize 0) as [->|Hne].
    - by injection Hrun as <-.
    - destruct (batchPromiseAllSettledInNode_positive fuel now promises chunkSize)
        as (e & He & _ & _ & Hend); [lia | done |].
      rewrite Hrun in He. injection He as <-. subst st.
      rewrite awaits_finalResults, awaits_clock, windows_spec_concat by lia. done. }
  split.
  - intros st [Hres Hclock]%Hsame.
    destruct (awaitAllSettled_whole now promises) as [Hwhole _].
    rewrite Hres, Hwhole. split_and!; [done| |done]. simpl.
    by rewrite fulfilled_rejected_length, length_map.
  - destruct (Z.eq_dec chunkSize 0) as [->|Hne].
    + split; [by left | by eexists].
    + rewrite batchPromiseAllSettledInNode_returns_iff by (lia || done).
      split; [by right | by intros [?|?]].
Qed.

Lemma windows_spec_singletons fuel ops :
  (length ops <= fuel)%nat ->
  windows_spec fuel 1 ops = map (fun p => [p]) ops.
Proof.
  revert ops. induction fuel as [|fuel IH]; intros ops Hfuel.
  - destruct ops; [done | simpl in Hfuel; lia].
  - destruct ops as [|p ops]; [done|].
    change (windows_spec (S fuel) 1 (p :: ops))
      with (take 1 (p :: ops) :: windows_spec fuel 1 (drop 1 (p :: ops))).
    simpl. rewrite drop_0, IH; [done | simpl in Hfuel; lia].
Qed.

Lemma windows_spec_step fuel n ops :
  ops <> [] ->
  windows_spec (S fuel) n ops = take n ops :: windows_spec fuel n (drop n ops).
Proof. by destruct ops. Qed.

Lemma windows_spec_count fuel n ops :
  (0 < n)%nat -> (length ops <= fuel)%nat ->
  Z.of_nat (length (windows_spec fuel n ops)) =
  (Z.of_nat (length ops) + Z.of_nat n - 1) / Z.of_nat n.
Proof.
  intros Hn. revert ops. induction fuel as [|fuel IH]; intros ops Hfuel.
  - destruct ops; [|simpl in Hfuel; lia]. simpl.
    symmetry. apply Z.div_small. lia.
  - destruct (decide (ops = [])) as [->|Hne].
    { simpl. symmetry. apply Z.div_small. lia. }
    assert (0 < length ops)%nat as Hlen by (destruct ops; [done | simpl; lia]).
    rewrite windows_spec_step by done.
    cbn [length]. rewrite Nat2Z.inj_succ, IH by (rewrite length_drop; lia).
    rewrite length_drop.
    destruct (Nat.le_gt_cases (length ops) n) as [Hle|Hgt].
    + replace (length ops - n)%nat with 0%nat by lia.
      rewrite (Z.div_small (Z.of_nat 0 + _ - 1)) by lia.
      apply Z.div_unique with (Z.of_nat (length ops) - 1); lia.
    + replace (Z.of_nat (length ops) + Z.of_nat n - 1)
        with ((Z.of_nat (length ops - n) + Z.of_nat n - 1) + 1 * Z.of_nat n)
        by lia.
      rewrite Z.div_add by lia. lia.
Qed.

(** X2.  With chunk size 1 the operations are waited on one at a time, in
    input order: the waits begun are on the first operations, each alone, no
    wait begins before the operation of the previous wait has settled, and a
    call that returns has made as many waits as there are operations. *)
Theorem batch_chunk_one_is_one_at_a_time fuel now promises
    (Hfuel : (length promises <= fuel)%nat) :
  exists e,
    batchPromiseAllSettledInNode fuel now promises 1 = Some e /\
    windowsBegun e `prefix_of` map (fun p => [p]) promises /\
    sequentialFrom now (completedWaits e) /\
    (forall st, e = Completed st ->
       map window (awaited st) = map (fun p => [p]) promises /\
       length (awaited st) = length promises).
Proof.
  destruct (batchPromiseAllSettledInNode_positive fuel now promises 1)
    as (e & He & Hpre & Hseq & Hend); [lia | done |].
  rewrite windows_spec_singletons in Hpre, Hend by done.
  exists e. split_and!; [done..|].
  intros st ->. rewrite Hend, awaits_windows. simpl. split; [done|].
  rewrite <- (length_map window), awaits_windows. simpl. by rewrite length_map.
Qed.

(** X3.  For a positive chunk size the number of waits a call begins is at
    most the number of operations divided by the chunk size, rounded up, and
    it is that number when the call returns. *)
Theorem batch_number_of_waits fuel now promises chunkSize
    (Hk : 0 < chunkSize) (Hfuel : (length promises <= fuel)%nat) :
  exists e,
    batchPromiseAllSettledInNode fuel now promises chunkSize = Some e /\
    Z.of_nat (length (windowsBegun e)) <=
      (Z.of_nat (length promises) + chunkSize - 1) / chunkSize /\
    (forall st, e = Completed st ->
       Z.of_nat (length (awaited st)) =
         (Z.of_nat (length promises) + chunkSize - 1) / chunkSize).
Proof.
  destruct (batchPromiseAllSettledInNode_positive fuel now promises chunkSize Hk Hfuel)
    as (e & He & Hpre & _ & Hend).
  pose proof (windows_spec_count (length promises) (Z.to_nat chunkSize) promises
                ltac:(lia) ltac:(done)) as Hcount.
  rewrite Z2Nat.id in Hcount by lia.
  exists e. split_and!; [done| |].
  - apply prefix_length in Hpre. lia.
  - intros st ->. rewrite <- (length_map window), Hend, awaits_windows. simpl. done.
Qed.

(** X4.  With a negative chunk size and at least one operation the call
    never completes: the loop index only decreases and stays below the length,
    so whatever the number of iterations allowed the loop is still running. *)
Theorem batch_negative_chunk_never_completes now promises chunkSize
    (Hk : chunkSize < 0) (Hne : promises <> []) :
  forall fuel, batchResult fuel now promises chunkSize = None.
Proof.
  intros fuel. unfold batchResult, batchPromiseAllSettled.
  destruct (Z.eqb_spec chunkSize 0); [lia|].
  by rewrite batchLoop_negative_runs_on by (done || lia).
Qed.

(** ** The cache wrapper: invalidation, overlap, and the age of entries *)

(** X5.  [clearCache] forgets every entry and nothing else: the clock and the
    log are untouched, no arguments find an entry any more, and the next call,
    whatever its arguments, invokes the wrapped function and ends as that
    invocation ends. *)
Theorem clearCache_forgets_everything func ttl w args :
  cache (clearCache w) = ∅ /\
  now (clearCache w) = now w /\
  calls (clearCache w) = calls w /\
  freshEntry ttl (clearCache w) args = None /\
  calls (memoizedFunc func ttl (clearCache w) args).1 = calls w ++ [args] /\
  (memoizedFunc func ttl (clearCache w) args).2 =
    invocationResult func (length (calls w)) args (now w).
Proof.
  assert (freshEntry ttl (clearCache w) args = None) as Hmiss.
  { unfold freshEntry. simpl. by rewrite lookup_empty. }
  destruct (memoizedFunc_miss_calls func ttl _ args Hmiss) as (Hc & Hr & _).
  split_and!; done.
Qed.

Lemma freshEntry_deleteCache_ne ttl w a1 a2 :
  cacheKey a1 <> cacheKey a2 ->
  freshEntry ttl (deleteCache w a1) a2 = freshEntry ttl w a2.
Proof.
  intros Hne. unfold freshEntry, deleteCache. simpl.
  by rewrite lookup_delete_ne.
Qed.

(** X6.  Invalidation is scoped to one key.  After [deleteCache] with some
    arguments the next call with those arguments invokes the wrapped function,
    even within the TTL; a call with arguments of another key is not affected:
    it returns what it would have returned, invokes the function exactly when
    it would have, and deleting before the call or after it leaves the same
    state. *)
Theorem deleteCache_then_call func ttl w a1 a2
    (Hne : cacheKey a1 <> cacheKey a2) :
  calls (memoizedFunc func ttl (deleteCache w a1) a1).1 = calls w ++ [a1] /\
  memoizedFunc func ttl (deleteCache w a1) a2 =
    (deleteCache (memoizedFunc func ttl w a2).1 a1, (memoizedFunc func ttl w a2).2).
Proof.
  split.
  - assert (freshEntry ttl (deleteCache w a1) a1 = None) as Hmiss.
    { unfold freshEntry, deleteCache. simpl. by rewrite lookup_delete_eq. }
    by destruct (memoizedFunc_miss_calls func ttl _ a1 Hmiss) as (-> & _).
  - pose proof (freshEntry_deleteCache_ne ttl w a1 a2 Hne) as Hf.
    destruct (freshEntry ttl w a2) as [e|] eqn:Hw.
    + by rewrite (memoizedFunc_hit func ttl _ _ _ Hf), (memoizedFunc_hit func ttl _ _ _ Hw).
    + rewrite (memoizedFunc_miss func ttl _ _ Hf), (memoizedFunc_miss func ttl _ _ Hw).
      simpl. destruct (func (length (calls w)) a2) as [x|e]; [|done].
      destruct (await x (now w)) as [[r|e] t]; simpl; [|done].
      unfold memoResume, deleteCache, setCache. simpl.
      by rewrite delete_insert_ne.
Qed.

(** Time does not run backwards along the steps, and an entry is stamped
    with the instant of its [cache.set]. *)
Lemma step_timestamps func ttl c c' :
  step func ttl c c' ->
  (forall key e, cache c.1 !! key = Some e -> timestamp e <= now c.1) ->
  (forall key e, cache c'.1 !! key = Some e -> timestamp e <= now c'.1).
Proof.
  intros Hstep Hinv.
  destruct Hstep as
    [w fl d Hd | w fl args stored Hs | w fl args w1 key pending Hs
    | w fl args w1 e Hs | w fl1 fl2 key pending result t Hset Ha
    | w fl1 fl2 key pending e t Hset Ha | w fl args | w fl]; simpl in *.
  - intros key e He. specialize (Hinv key e He). lia.
  - done.
  - apply memoStart_inv in Hs as [[-> _]|(-> & _)]; done.
  - apply memoStart_inv in Hs as [[-> _]|(-> & _)]; done.
  - intros key' e'. destruct (decide (key = key')) as [<-|Hne].
    + rewrite lookup_insert_eq. by intros [= <-].
    + rewrite lookup_insert_ne by done. apply Hinv.
  - done.
  - intros key e He. apply lookup_delete_Some in He as [_ He]. by apply (Hinv key).
  - intros key e. by rewrite lookup_empty.
Qed.

Lemma reachable_timestamps func ttl c :
  reachable func ttl c ->
  forall key e, cache c.1 !! key = Some e -> timestamp e <= now c.1.
Proof.
  induction 1 as [t0|c c' _ IH Hstep].
  - intros key e. simpl. by rewrite lookup_empty.
  - by apply (step_timestamps func ttl c c').
Qed.

(** X7.  In every reachable state no entry is stamped in the future: the
    timestamp of each entry is at most the current instant, so the age that
    [isEntryExpired] computes is never negative. *)
Theorem timestamps_not_in_future func ttl c (Hreach : reachable func ttl c) :
  forall key e, cache c.1 !! key = Some e -> 0 <= now c.1 - timestamp e.
Proof.
  assert (forall key e, cache c.1 !! key = Some e -> timestamp e <= now c.1) as Hle.
  { induction Hreach as [t0|c c' _ IH Hstep].
    - intros key e. simpl. by rewrite lookup_empty.
    - by apply (step_timestamps func ttl c c'). }
  intros key e He. specialize (Hle key e He). lia.
Qed.

(** X8.  A negative TTL switches the cache off: in every reachable state
    every entry counts as expired, so each call invokes the wrapped function
    and ends as that invocation ends. *)
Theorem negative_ttl_never_hits func m c args
    (Hm : m < 0) (Hreach : reachable func (Some m) c) :
  freshEntry (Some m) c.1 args = None /\
  calls (memoizedFunc func (Some m) c.1 args).1 = calls c.1 ++ [args] /\
  (memoizedFunc func (Some m) c.1 args).2 =
    invocationResult func (length (calls c.1)) args (now c.1).
Proof.
  assert (freshEntry (Some m) c.1 args = None) as Hmiss.
  { apply freshEntry_None. intros e He.
    pose proof (reachable_timestamps func (Some m) c Hreach _ e He) as Hts.
    apply isEntryExpired_spec. exists m. split; [done | lia]. }
  destruct (memoizedFunc_miss_calls func (Some m) _ args Hmiss) as (Hc & Hr & _).
  done.
Qed.

Lemma memoStart_keeps_cache func ttl w args :
  cache (memoStart func ttl w args).1 = cache w /\
  now (memoStart func ttl w args).1 = now w.
Proof.
  destruct (memoStart func ttl w args) as [w1 s] eqn:Hs.
  by apply memoStart_inv in Hs as [[-> _]|(-> & _)].
Qed.

(** X9.  Calls in flight are not shared.  When no fresh entry exists, [k]
    calls with the same arguments, each begun before any of the others has
    resumed from its [await], invoke the wrapped function [k] times: the
    lookup phase writes nothing into the cache, so each of them misses. *)
Theorem overlapping_calls_each_invoke func ttl k w args
    (Hmiss : freshEntry ttl w args = None) :
  calls (startedCalls func ttl k w args) = calls w ++ replicate k args /\
  cache (startedCalls func ttl k w args) = cache w /\
  freshEntry ttl (startedCalls func ttl k w args) args = None.
Proof.
  induction k as [|k (IHc & IHm & IHf)].
  - simpl. by rewrite app_nil_r.
  - cbn [startedCalls].
    rewrite (memoStart_miss func ttl _ args IHf). simpl.
    split_and!.
    + rewrite IHc, <- app_assoc. f_equal. symmetry. apply replicate_cons_app.
    + done.
    + unfold freshEntry in *. simpl. exact IHf.
Qed.

(** ** The cache key: which argument lists share one *)

Lemma string_app_cons c (a b : string) : String c a +:+ b = String c (a +:+ b).
Proof. reflexivity. Qed.

Lemma string_app_nil_l (b : string) : "" +:+ b = b.
Proof. reflexivity. Qed.

Ltac str_simpl := rewrite ?string_app_cons, ?string_app_nil_l in *.

Lemma string_app_assoc (a b c : string) : (a +:+ b) +:+ c = a +:+ (b +:+ c).
Proof. induction a as [|x a IH]; str_simpl; [done | by f_equal]. Qed.

Lemma string_app_nil_r (a : string) : a +:+ "" = a.
Proof. induction a as [|x a IH]; str_simpl; [done | by f_equal]. Qed.

Lemma string_app_inv_head (a x y : string) : a +:+ x = a +:+ y -> x = y.
Proof.
  induction a as [|c a IH]; [done|]. rewrite !string_app_cons.
  intros [= H]. by apply IH.
Qed.

Lemma allChars_app f a b : allChars f (a +:+ b) = allChars f a && allChars f b.
Proof.
  induction a as [|c a IH]; [done|]. rewrite string_app_cons. simpl.
  rewrite IH. by rewrite andb_assoc.
Qed.

Lemma numberChar_headKind c : numberChar c = true -> headKind c = 3%nat.
Proof. unfold headKind. by intros ->. Qed.

Lemma headKind_0_not_numberChar c : headKind c = 0%nat -> numberChar c = false.
Proof. unfold headKind. by destruct (numberChar c). Qed.

Lemma pretty_N_char_numberChar d : numberChar (pretty_N_char d) = true.
Proof. unfold pretty_N_char. by repeat case_match. Qed.

(** The digits that [pretty_N_go] puts in front of its accumulator. *)
Lemma pretty_N_go_digits x s :
  exists p, pretty_N_go x s = p +:+ s /\ allChars numberChar p = true /\
            ((0 < x)%N -> p <> "").
Proof.
  revert s. induction (N.lt_wf_0 x) as [x _ IH]; intros s.
  assert (x = 0 \/ 0 < x)%N as [->|Hx] by lia.
  - exists "". rewrite pretty_N_go_0. split_and!; [done..|lia].
  - rewrite pretty_N_go_step by done.
    destruct (IH (x `div` 10)%N (N.div_lt x 10 Hx eq_refl)
                (String (pretty_N_char (x `mod` 10)) s)) as (p & Hp & Hd & _).
    exists (p +:+ String (pretty_N_char (x `mod` 10)) "").
    rewrite Hp, string_app_assoc. split_and!; [done| |].
    + rewrite allChars_app, Hd. simpl. by rewrite pretty_N_char_numberChar.
    + intros _. by destruct p.
Qed.

Lemma pretty_N_digits (x : N) :
  allChars numberChar (pretty x) = true /\ pretty x <> "".
Proof.
  unfold pretty, pretty_N. case_decide as Hx; [done|].
  destruct (pretty_N_go_digits x "") as (p & Hp & Hd & Hne).
  rewrite Hp, string_app_nil_r. split; [done | apply Hne; lia].
Qed.

Lemma pretty_Z_digits (n : Z) :
  allChars numberChar (pretty n) = true /\ pretty n <> "".
Proof.
  destruct n as [|q|q]; [done| |].
  - apply (pretty_N_digits (N.pos q)).
  - destruct (pretty_N_digits (N.pos q)) as [Hd _].
    change (pretty (Z.neg q)) with ("-" +:+ pretty (N.pos q)).
    rewrite string_app_cons. split; [|done]. simpl. exact Hd.
Qed.

(** Two numbers written before a delimiter are the same number. *)
Lemma number_text_unambiguous s1 s2 r1 r2 :
  allChars numberChar s1 = true -> allChars numberChar s2 = true ->
  delimited r1 -> delimited r2 ->
  s1 +:+ r1 = s2 +:+ r2 -> s1 = s2 /\ r1 = r2.
Proof.
  revert s2. induction s1 as [|c s1 IH]; intros [|c' s2] H1 H2 D1 D2 Heq;
    str_simpl; simpl in *.
  - done.
  - subst r1. simpl in D1. apply headKind_0_not_numberChar in D1.
    apply andb_true_iff in H2 as [H2 _]. congruence.
  - subst r2. simpl in D2. apply headKind_0_not_numberChar in D2.
    apply andb_true_iff in H1 as [H1 _]. congruence.
  - injection Heq as -> Heq.
    apply andb_true_iff in H1 as [_ H1]. apply andb_true_iff in H2 as [_ H2].
    destruct (IH s2 H1 H2 D1 D2 Heq) as [-> ->]. done.
Qed.

Lemma unquoteChar_quoteChar c rest :
  unquoteChar (quoteChar c +:+ rest) = Some (c, rest).
Proof. destruct c as [[] [] [] [] [] [] [] []]; reflexivity. Qed.

Lemma quoteChar_not_closing c rest x :
  quoteChar c +:+ rest <> String dquote x.
Proof.
  intros Heq. pose proof (unquoteChar_quoteChar c rest) as Hu.
  rewrite Heq in Hu. injection Hu as <- _. discriminate Heq.
Qed.

(** Quoted text determines the string: the closing quote is the first
    unescaped one. *)
Lemma quoteChars_unambiguous s s' x y :
  quoteChars s +:+ String dquote x = quoteChars s' +:+ String dquote y ->
  s = s' /\ x = y.
Proof.
  revert s'. induction s as [|c s IH]; intros [|c' s'] Heq; simpl in Heq.
  - str_simpl. by injection Heq as ->.
  - rewrite string_app_nil_l, string_app_assoc in Heq.
    symmetry in Heq. by apply quoteChar_not_closing in Heq.
  - rewrite string_app_nil_l, string_app_assoc in Heq.
    by apply quoteChar_not_closing in Heq.
  - rewrite !string_app_assoc in Heq.
    pose proof (unquoteChar_quoteChar c (quoteChars s +:+ String dquote x)) as Hu.
    rewrite Heq, unquoteChar_quoteChar in Hu. injection Hu as -> Hrest.
    symmetry in Hrest. destruct (IH s' Hrest) as [-> ->]. done.
Qed.

Lemma quoteJSONString_unambiguous s s' r r' :
  quoteJSONString s +:+ r = quoteJSONString s' +:+ r' -> s = s' /\ r = r'.
Proof.
  unfold quoteJSONString. rewrite !string_app_assoc, !string_app_cons.
  intros [= Heq]. str_simpl. by apply quoteChars_unambiguous.
Qed.

Lemma joinWith_then sep p ps R :
  joinWith sep (p :: ps) +:+ R = p +:+ foldr (fun q acc => sep +:+ q +:+ acc) R ps.
Proof.
  revert p. induction ps as [|q ps IH]; intros p; [done|].
  change (joinWith sep (p :: q :: ps)) with (p +:+ sep +:+ joinWith sep (q :: ps)).
  by rewrite !string_app_assoc, IH.
Qed.

Lemma itemsTail_foldr items r :
  itemsTail items r =
  foldr (fun q acc => "," +:+ q +:+ acc) ("]" +:+ r) (map serializeItem items).
Proof. induction items as [|x items IH]; simpl; [done | by rewrite IH]. Qed.

Lemma membersTail_foldr props r :
  membersTail props r =
  foldr (fun q acc => "," +:+ q +:+ acc) ("}" +:+ r)
    (map (fun p => quoteJSONString (fst p) +:+ ":" +:+ serializeItem (snd p)) props).
Proof.
  induction props as [|p props IH]; simpl; [done|].
  by rewrite IH, !string_app_assoc.
Qed.

Lemma jsonData_serializeJSON v :
  jsonData v = true -> serializeJSON v = Some (serializeItem v).
Proof. unfold serializeItem. by destruct v as [| |[]| | | |]. Qed.

(** The text of an array followed by [r]. *)
Lemma serializeItem_array items r :
  serializeItem (JArr items) +:+ r =
  String (Ascii.ascii_of_nat 91) (match items with
              | [] => "]" +:+ r
              | x :: rest => serializeItem x +:+ itemsTail rest r
              end).
Proof.
  change (serializeItem (JArr items))
    with ("[" +:+ joinWith "," (map serializeItem items) +:+ "]").
  rewrite !string_app_assoc, string_app_cons, string_app_nil_l. f_equal.
  destruct items as [|x rest]; [done|].
  by rewrite itemsTail_foldr, map_cons, joinWith_then.
Qed.

(** The text of an object all of whose values are JSON data, followed by
    [r]. *)
Lemma serializeItem_object props r :
  forallb (fun p => jsonData (snd p)) props = true ->
  serializeItem (JObj props) +:+ r =
  String (Ascii.ascii_of_nat 123) (match props with
              | [] => "}" +:+ r
              | p :: rest =>
                  quoteJSONString (fst p) +:+ ":" +:+ serializeItem (snd p)
                  +:+ membersTail rest r
              end).
Proof.
  intros Hdata.
  assert (omap (fun p => match serializeJSON (snd p) with
                         | Some str => Some (quoteJSONString (fst p) +:+ ":" +:+ str)
                         | None => None
                         end) props
          = map (fun p => quoteJSONString (fst p) +:+ ":" +:+ serializeItem (snd p))
              props) as Hmap.
  { induction props as [|p props IH]; [done|].
    simpl in Hdata. apply andb_true_iff in Hdata as [Hp Hdata].
    csimpl. rewrite (jsonData_serializeJSON _ Hp). csimpl. by rewrite IH. }
  change (serializeItem (JObj props))
    with ("{" +:+ joinWith ","
            (omap (fun p => match serializeJSON (snd p) with
                            | Some str => Some (quoteJSONString (fst p) +:+ ":" +:+ str)
                            | None => None
                            end) props) +:+ "}").
  rewrite Hmap.
  rewrite !string_app_assoc, string_app_cons, string_app_nil_l. f_equal.
  destruct props as [|p rest]; [done|].
  by rewrite membersTail_foldr, map_cons, joinWith_then, !string_app_assoc.
Qed.

Lemma itemsTail_delimited items r : delimited (itemsTail items r).
Proof. by destruct items. Qed.

Lemma membersTail_delimited props r : delimited (membersTail props r).
Proof. by destruct props. Qed.

(** The first character of a value's text tells its kind. *)
Lemma serializeItem_head v :
  jsonData v = true ->
  exists c s, serializeItem v = String c s /\ headKind c = kindOf v.
Proof.
  destruct v as [| |[]|[| | | |n safe]|str|items|props]; intros Hdata; try done;
    try (by eexists _, _; split; reflexivity).
  - destruct (pretty_Z_digits n) as [Hd Hne].
    change (serializeItem (JNum (Int n safe))) with (pretty n).
    destruct (pretty n) as [|c s]; [done|].
    exists c, s. split; [done|]. simpl in Hd.
    apply andb_true_iff in Hd as [Hc _]. by apply numberChar_headKind.
Qed.

Lemma same_text_same_kind v1 v2 r1 r2 :
  jsonData v1 = true -> jsonData v2 = true ->
  serializeItem v1 +:+ r1 = serializeItem v2 +:+ r2 -> kindOf v1 = kindOf v2.
Proof.
  intros D1 D2 Heq.
  destruct (serializeItem_head v1 D1) as (c1 & s1 & E1 & K1).
  destruct (serializeItem_head v2 D2) as (c2 & s2 & E2 & K2).
  rewrite E1, E2, !string_app_cons in Heq. injection Heq as -> _. congruence.
Qed.

(** A value never begins with a character that begins no value. *)
Lemma value_head_not_delimiter v c rest X :
  jsonData v = true -> headKind c = 0%nat ->
  String c rest <> serializeItem v +:+ X.
Proof.
  intros D Hc Heq. destruct (serializeItem_head v D) as (c' & s & E & K).
  rewrite E, string_app_cons in Heq. injection Heq as -> _.
  rewrite Hc in K. by destruct v.
Qed.

Lemma itemsTail_unambiguous l1 :
  Forall readsOneWay l1 ->
  forall l2 r1 r2,
    forallb jsonData l1 = true -> forallb jsonData l2 = true ->
    delimited r1 -> delimited r2 ->
    itemsTail l1 r1 = itemsTail l2 r2 -> l1 = l2 /\ r1 = r2.
Proof.
  induction 1 as [|x l1 Hx _ IH]; intros [|y l2] r1 r2 D1 D2 R1 R2 Heq;
    simpl in Heq; rewrite ?string_app_cons, ?string_app_nil_l in Heq.
  - by injection Heq as ->.
  - discriminate Heq.
  - discriminate Heq.
  - injection Heq as Heq.
    simpl in D1, D2. apply andb_true_iff in D1 as [Dx D1].
    apply andb_true_iff in D2 as [Dy D2].
    destruct (Hx y _ _ Dx Dy (itemsTail_delimited l1 r1) (itemsTail_delimited l2 r2) Heq)
      as [-> Htail].
    destruct (IH l2 r1 r2 D1 D2 R1 R2 Htail) as [-> ->]. done.
Qed.

Lemma membersTail_unambiguous l1 :
  Forall (fun p => readsOneWay (snd p)) l1 ->
  forall l2 r1 r2,
    forallb (fun p => jsonData (snd p)) l1 = true ->
    forallb (fun p => jsonData (snd p)) l2 = true ->
    delimited r1 -> delimited r2 ->
    membersTail l1 r1 = membersTail l2 r2 -> l1 = l2 /\ r1 = r2.
Proof.
  induction 1 as [|[k v] l1 Hx _ IH]; intros [|[k' v'] l2] r1 r2 D1 D2 R1 R2 Heq;
    cbn [membersTail fst snd] in Heq;
    rewrite ?string_app_cons, ?string_app_nil_l in Heq.
  - by injection Heq as ->.
  - discriminate Heq.
  - discriminate Heq.
  - injection Heq as Heq.
    simpl in D1, D2. apply andb_true_iff in D1 as [Dx D1].
    apply andb_true_iff in D2 as [Dy D2].
    rewrite !string_app_assoc, !string_app_cons, !string_app_nil_l in Heq.
    apply quoteChars_unambiguous in Heq as [-> Heq]. injection Heq as Heq.
    destruct (Hx v' _ _ Dx Dy (membersTail_delimited l1 r1)
                (membersTail_delimited l2 r2) Heq) as [Hv Htail].
    simpl in Hv. subst v'.
    destruct (IH l2 r1 r2 D1 D2 R1 R2 Htail) as [-> ->]. done.
Qed.

(** The text that [JSON.stringify] writes for JSON data is unambiguous. *)
Lemma serializeItem_readsOneWay v1 : readsOneWay v1.
Proof.
  induction v1 as [| |b|n|str|items IH|props IH] using jsval_nested_ind;
    intros v2 r1 r2 D1 D2 R1 R2 Heq;
    pose proof (same_text_same_kind _ _ _ _ D1 D2 Heq) as Hk;
    destruct v2 as [| |b'|n'|str'|items'|props']; try discriminate Hk; clear Hk.
  - done.
  - split; [done|]. by apply (string_app_inv_head "null").
  - destruct b, b'; unfold serializeItem in Heq; simpl in Heq.
    + split; [done|]. by apply (string_app_inv_head "true").
    + rewrite !string_app_cons in Heq. discriminate Heq.
    + rewrite !string_app_cons in Heq. discriminate Heq.
    + split; [done|]. by apply (string_app_inv_head "false").
  - destruct n as [| | | |n safe]; try discriminate D1.
    destruct n' as [| | | |n' safe']; try discriminate D2.
    change (pretty n +:+ r1 = pretty n' +:+ r2) in Heq.
    destruct (number_text_unambiguous _ _ _ _
                (proj1 (pretty_Z_digits n)) (proj1 (pretty_Z_digits n')) R1 R2 Heq)
      as [Hn ->].
    apply (inj pretty) in Hn. split; [|done]. f_equal. by apply Int_eq.
  - change (quoteJSONString str +:+ r1 = quoteJSONString str' +:+ r2) in Heq.
    by apply quoteJSONString_unambiguous in Heq as [-> ->].
  - rewrite !serializeItem_array in Heq. injection Heq as Heq.
    simpl in D1, D2.
    destruct IH as [|x l1 Hx IH]; destruct items' as [|y l2].
    + rewrite !string_app_cons, !string_app_nil_l in Heq. by injection Heq as ->.
    + simpl in D2. apply andb_true_iff in D2 as [Dy _].
      rewrite string_app_cons in Heq.
      by apply value_head_not_delimiter in Heq.
    + simpl in D1. apply andb_true_iff in D1 as [Dx _].
      rewrite string_app_cons in Heq. symmetry in Heq.
      by apply value_head_not_delimiter in Heq.
    + simpl in D1, D2. apply andb_true_iff in D1 as [Dx D1].
      apply andb_true_iff in D2 as [Dy D2].
      destruct (Hx y _ _ Dx Dy (itemsTail_delimited l1 r1)
                  (itemsTail_delimited l2 r2) Heq) as [-> Htail].
      by destruct (itemsTail_unambiguous l1 IH l2 r1 r2 D1 D2 R1 R2 Htail) as [-> ->].
  - simpl in D1, D2.
    rewrite !serializeItem_object in Heq by done. injection Heq as Heq.
    destruct IH as [|[k v] l1 Hx IH]; destruct props' as [|[k' v'] l2].
    + rewrite !string_app_cons, !string_app_nil_l in Heq. by injection Heq as ->.
    + unfold quoteJSONString in Heq. rewrite !string_app_cons in Heq.
      discriminate Heq.
    + unfold quoteJSONString in Heq. rewrite !string_app_cons in Heq.
      discriminate Heq.
    + simpl in D1, D2. cbn [fst snd] in Heq. apply andb_true_iff in D1 as [Dx D1].
      apply andb_true_iff in D2 as [Dy D2].
      apply quoteJSONString_unambiguous in Heq as [-> Heq].
      rewrite !string_app_cons, !string_app_nil_l in Heq. injection Heq as Heq.
      destruct (Hx v' _ _ Dx Dy (membersTail_delimited l1 r1)
                  (membersTail_delimited l2 r2) Heq) as [Hv Htail].
      simpl in Hv. subst v'.
      by destruct (membersTail_unambiguous l1 IH l2 r1 r2 D1 D2 R1 R2 Htail)
        as [-> ->].
Qed.

Lemma serializeItem_elemForm x :
  serializeJSON (jsonForm x) = serializeJSON x ->
  serializeItem (match x with JUndefined => JNull | _ => jsonForm x end)
  = serializeItem x.
Proof. intros Hx. unfold serializeItem. destruct x; by rewrite ?Hx. Qed.

Lemma omap_cons_step {A B : Type} (f : A -> option B) x l :
  omap f (x :: l) = match f x with Some y => y :: omap f l | None => omap f l end.
Proof. reflexivity. Qed.

(** [JSON.stringify] writes a value and its JSON form alike. *)
Lemma serializeJSON_jsonForm v : serializeJSON (jsonForm v) = serializeJSON v.
Proof.
  induction v as [| |b|n|str|items IH|props IH] using jsval_nested_ind; try done.
  - by destruct n.
  - change (Some ("[" +:+ joinWith ","
                    (map serializeItem
                       (map (fun x => match x with JUndefined => JNull | _ => jsonForm x end)
                          items)) +:+ "]")
            = Some ("[" +:+ joinWith "," (map serializeItem items) +:+ "]")).
    assert (map serializeItem
              (map (fun x => match x with JUndefined => JNull | _ => jsonForm x end) items)
            = map serializeItem items) as ->; [|done].
    induction IH as [|x items Hx _ IHitems]; [done|].
    rewrite !map_cons. f_equal; [by apply serializeItem_elemForm | done].
  - set (member := fun p : string * jsval =>
           match serializeJSON (snd p) with
           | Some str => Some (quoteJSONString (fst p) +:+ ":" +:+ str)
           | None => None
           end).
    change (Some ("{" +:+ joinWith ","
                    (omap member
                       (omap (fun p => match snd p with
                                       | JUndefined => None
                                       | _ => Some (fst p, jsonForm (snd p))
                                       end) props)) +:+ "}")
            = Some ("{" +:+ joinWith "," (omap member props) +:+ "}")).
    assert (omap member
              (omap (fun p => match snd p with
                              | JUndefined => None
                              | _ => Some (fst p, jsonForm (snd p))
                              end) props)
            = omap member props) as ->; [|done].
    induction IH as [|[k v] props Hv _ IHprops]; [done|].
    rewrite !omap_cons_step. simpl in Hv.
    assert (v = JUndefined \/ v <> JUndefined) as [->|Hne]
      by (destruct v; (by left) || (by right)).
    { exact IHprops. }
    replace (match (k, v).2 with
             | JUndefined => None
             | _ => Some ((k, v).1, jsonForm (k, v).2)
             end) with (Some (k, jsonForm v)) by (by destruct v).
    rewrite omap_cons_step.
    replace (member (k, jsonForm v)) with (member (k, v))
      by (unfold member; simpl; by rewrite Hv).
    by rewrite IHprops.
Qed.

Lemma jsonData_jsonForm v : v <> JUndefined -> jsonData (jsonForm v) = true.
Proof.
  induction v as [| |b|n|str|items IH|props IH] using jsval_nested_ind;
    intros Hne; try done.
  - by destruct n.
  - clear Hne. simpl. induction IH as [|x items Hx _ IHitems]; [done|].
    simpl. apply andb_true_iff. split; [|done].
    destruct x; try done; by apply Hx.
  - clear Hne. simpl. induction IH as [|[k v] props Hv _ IHprops]; [done|].
    rewrite omap_cons_step. simpl in Hv.
    destruct v; try exact IHprops;
      simpl; apply andb_true_iff; (split; [by apply Hv | exact IHprops]).
Qed.

Lemma jsonData_jsonFormArgs args : forallb jsonData (jsonFormArgs args) = true.
Proof. exact (jsonData_jsonForm (JArr args) ltac:(done)). Qed.

Lemma cacheKey_jsonFormArgs args : cacheKey (jsonFormArgs args) = cacheKey args.
Proof.
  destruct args as [|x args]; [done|].
  change (default "null" (serializeJSON (jsonForm (JArr (x :: args))))
          = default "null" (serializeJSON (JArr (x :: args)))).
  by rewrite serializeJSON_jsonForm.
Qed.

Lemma cacheKey_data_inj a1 a2 :
  forallb jsonData a1 = true -> forallb jsonData a2 = true ->
  cacheKey a1 = cacheKey a2 -> a1 = a2.
Proof.
  intros D1 D2 Heq.
  assert (forall x l, cacheKey (x :: l) = serializeItem (JArr (x :: l)) +:+ "") as Hkey.
  { intros x l. by rewrite string_app_nil_r. }
  destruct a1 as [|x l1], a2 as [|y l2]; [done| | |].
  - rewrite Hkey, serializeItem_array in Heq. discriminate Heq.
  - rewrite Hkey, serializeItem_array in Heq. discriminate Heq.
  - rewrite !Hkey in Heq.
    by destruct (serializeItem_readsOneWay (JArr (x :: l1)) (JArr (y :: l2)) "" ""
                   D1 D2 I I Heq) as [[= -> ->] _].
Qed.

Lemma cacheKey_eq_jsonFormArgs a1 a2 :
  cacheKey a1 = cacheKey a2 <-> jsonFormArgs a1 = jsonFormArgs a2.
Proof.
  split.
  - intros Heq. apply cacheKey_data_inj; [apply jsonData_jsonFormArgs..|].
    by rewrite !cacheKey_jsonFormArgs.
  - intros Heq. by rewrite <- (cacheKey_jsonFormArgs a1), Heq, cacheKey_jsonFormArgs.
Qed.

(** Where no property is [undefined], the JSON form keeps every property, so
    two values with the same JSON form list their properties in the same
    order. *)
Lemma jsonForm_sameKeyOrder v1 :
  forall v2,
    definedProperties v1 = true -> definedProperties v2 = true ->
    match v1 with JUndefined => JNull | _ => jsonForm v1 end
    = match v2 with JUndefined => JNull | _ => jsonForm v2 end ->
    sameKeyOrder v1 v2 = true.
Proof.
  induction v1 as [| |b|n|str|items IH|props IH] using jsval_nested_ind;
    intros v2 D1 D2 Heq; try done.
  - destruct v2 as [| |b'|n'|str'|items'|props']; try done.
    injection Heq as Heq. simpl in D1, D2 |- *.
    apply Is_true_true_2, forallb_True in D1, D2.
    apply pairwise_Forall2.
    revert items' D1 D2 Heq.
    induction IH as [|x items Hx _ IHitems]; intros [|y items'] D1 D2 Heq;
      try done.
    rewrite !map_cons in Heq. injection Heq as Hxy Heq.
    apply Forall_cons in D1 as [Dx D1]. apply Forall_cons in D2 as [Dy D2].
    constructor; [|by apply IHitems].
    apply Hx; [by apply Is_true_true_1..|done].
  - destruct v2 as [| |b'|n'|str'|items'|props']; try done.
    injection Heq as Heq. simpl in D1, D2 |- *.
    { apply Is_true_true_2, forallb_True in D1, D2.
      apply pairwise_Forall2.
      revert props' D1 D2 Heq.
      induction IH as [|[k v] props Hv _ IHprops]; intros [|[k' v'] props'] D1 D2 Heq.
      * constructor.
      * apply Forall_cons in D2 as [Dy _]. simpl in Dy.
        rewrite omap_cons_step in Heq. simpl in Heq. by destruct v'.
      * apply Forall_cons in D1 as [Dx _]. simpl in Dx.
        rewrite omap_cons_step in Heq. simpl in Heq. by destruct v.
      * apply Forall_cons in D1 as [Dx D1]. apply Forall_cons in D2 as [Dy D2].
        simpl in Dx, Dy, Hv.
        assert (omap (fun p : string * jsval =>
                        match snd p with
                        | JUndefined => None
                        | _ => Some (fst p, jsonForm (snd p))
                        end) ((k, v) :: props)
                = (k, jsonForm v)
                  :: omap (fun p : string * jsval =>
                             match snd p with
                             | JUndefined => None
                             | _ => Some (fst p, jsonForm (snd p))
                             end) props) as E1
          by (rewrite omap_cons_step; simpl; by destruct v).
        assert (omap (fun p : string * jsval =>
                        match snd p with
                        | JUndefined => None
                        | _ => Some (fst p, jsonForm (snd p))
                        end) ((k', v') :: props')
                = (k', jsonForm v')
                  :: omap (fun p : string * jsval =>
                             match snd p with
                             | JUndefined => None
                             | _ => Some (fst p, jsonForm (snd p))
                             end) props') as E2
          by (rewrite omap_cons_step; simpl; by destruct v').
        rewrite E1, E2 in Heq. injection Heq as -> Hvv Heq.
        constructor; [|by apply IHprops].
        simpl. rewrite String.eqb_refl. simpl.
        apply Hv.
        -- destruct v; simpl in Dx; try done; by apply Is_true_true_1.
        -- destruct v'; simpl in Dy; try done; by apply Is_true_true_1.
        -- destruct v, v'; simpl in Dx, Dy; done. }
Qed.

(** C6.  All calls without arguments use the key [genericKey].  For two
    argument lists that are deep-equal, with each property name once in an
    object and no property [undefined], the keys are equal exactly when the
    lists enumerate the properties of their objects in the same order: the key
    keeps the order of the properties, so it is shared by structurally equal
    lists of the same property order and by no others.  The key of a non-empty
    list is its [JSON.stringify] text, the serialized arguments in their order
    between brackets. *)
Theorem cacheKey_same_structure a1 a2
    (Hwf : uniqueKeys (JArr a2) = true)
    (Hdef1 : definedProperties (JArr a1) = true)
    (Hdef2 : definedProperties (JArr a2) = true)
    (Heq : deepEqual (JArr a1) (JArr a2) = true) :
  cacheKey [] = "genericKey" /\
  (cacheKey a1 = cacheKey a2 <-> sameKeyOrder (JArr a1) (JArr a2) = true) /\
  (a1 <> [] ->
   cacheKey a1 =
   "[" +:+ joinWith "," (map (fun a => default "null" (serializeJSON a)) a1) +:+ "]").
Proof.
  split; [done|]. split; [|by destruct a1]. split.
  - intros Hkey%cacheKey_eq_jsonFormArgs.
    apply (jsonForm_sameKeyOrder (JArr a1) (JArr a2) Hdef1 Hdef2).
    simpl. f_equal. exact Hkey.
  - intros Hord. f_equal. by injection (deepEqual_same_order _ _ Hwf Heq Hord).
Qed.

Lemma cacheKey_same_structure_witness :
  uniqueKeys (JArr argsBA) = true /\
  definedProperties (JArr argsAB) = true /\
  definedProperties (JArr argsBA) = true /\
  deepEqual (JArr argsAB) (JArr argsBA) = true /\
  cacheKey [] = "genericKey" /\
  (cacheKey argsAB = cacheKey argsBA <->
   sameKeyOrder (JArr argsAB) (JArr argsBA) = true).
Proof.
  assert (uniqueKeys (JArr argsBA) = true) as Hwf by (vm_compute; reflexivity).
  assert (definedProperties (JArr argsAB) = true) as Hdef1 by reflexivity.
  assert (definedProperties (JArr argsBA) = true) as Hdef2 by reflexivity.
  assert (deepEqual (JArr argsAB) (JArr argsBA) = true) as Heq by reflexivity.
  split; [exact Hwf|]. split; [exact Hdef1|]. split; [exact Hdef2|].
  split; [exact Heq|].
  destruct (cacheKey_same_structure argsAB argsBA Hwf Hdef1 Hdef2 Heq) as (H1 & H2 & _).
  split; [exact H1 | exact H2].
Defined.

(** X10.  The key [genericKey] belongs to the calls without arguments only:
    no call with at least one argument derives it, so such a call never reads
    or overwrites the entry of the zero-argument calls. *)
Theorem genericKey_only_without_arguments args :
  cacheKey args = "genericKey" <-> args = [].
Proof.
  split; [|by intros ->]. destruct args as [|x l]; [done|]. intros Heq.
  assert (cacheKey (x :: l) = serializeItem (JArr (x :: l)) +:+ "") as Hkey
    by (by rewrite string_app_nil_r).
  rewrite Hkey, serializeItem_array in Heq. discriminate Heq.
Qed.

(** X11.  Argument lists that are JSON data (nowhere in them an [undefined],
    a [NaN], an infinity or a [-0]) and differ in any way, be it a value, the
    order of the arguments or the order of the properties of an object, derive
    different keys: the key determines the list. *)
Theorem cacheKey_injective_on_json_data a1 a2
    (Hdata1 : forallb jsonData a1 = true) (Hdata2 : forallb jsonData a2 = true) :
  cacheKey a1 = cacheKey a2 <-> a1 = a2.
Proof.
  split; [|by intros ->]. intros Heq.
  assert (forall x l, cacheKey (x :: l) = serializeItem (JArr (x :: l)) +:+ "") as Hkey.
  { intros x l. by rewrite string_app_nil_r. }
  destruct a1 as [|x l1], a2 as [|y l2]; [done| | |].
  - rewrite Hkey, serializeItem_array in Heq. discriminate Heq.
  - rewrite Hkey, serializeItem_array in Heq. discriminate Heq.
  - rewrite !Hkey in Heq.
    by destruct (serializeItem_readsOneWay (JArr (x :: l1)) (JArr (y :: l2)) "" ""
                   Hdata1 Hdata2 I I Heq) as [[= -> ->] _].
Qed.

(** X12.  Two argument lists of plain data ([undefined], [null], booleans,
    numbers, strings, arrays and plain objects of these) derive the same key
    exactly when they have the same JSON form, the form in which an [undefined] array element (or
    argument), a [NaN] and an infinity are [null], [-0] is [0], and a property
    whose value is [undefined] is absent.  So calls with [undefined], with
    [NaN], with [Infinity] and with [null] share one entry, as do calls with
    [-0] and with [0], and a call with an object shares the entry of a call
    with that object without its [undefined] properties. *)
Theorem cacheKey_collision_iff_same_json_form a1 a2 :
  (cacheKey a1 = cacheKey a2 <-> jsonFormArgs a1 = jsonFormArgs a2) /\
  cacheKey (jsonFormArgs a1) = cacheKey a1 /\
  cacheKey [JUndefined] = cacheKey [JNull] /\
  cacheKey [JNum NaN] = cacheKey [JNull] /\
  cacheKey [JNum Infinity] = cacheKey [JNull] /\
  cacheKey [JNum NegZero] = cacheKey [JNum (Int 0 I)] /\
  cacheKey [JObj [("a", JUndefined)]] = cacheKey [JObj []].
Proof.
  split_and!; [apply cacheKey_eq_jsonFormArgs | apply cacheKey_jsonFormArgs | done..].
Qed.

(** X13.  What the cache serves was computed for the same arguments, up to
    their JSON form: in every reachable state a fresh entry found for [args]
    holds the value that an earlier invocation of the wrapped function
    resolved to, and that invocation was made with arguments whose JSON form
    is that of [args]. *)
Theorem hit_serves_result_of_same_arguments func ttl c args e
    (Hreach : reachable func ttl c)
    (Hfresh : freshEntry ttl c.1 args = Some e) :
  exists v i args' x,
    memoizedFunc func ttl c.1 args = (c.1, Returned v) /\
    calls c.1 !! i = Some args' /\
    jsonFormArgs args' = jsonFormArgs args /\
    func i args' = Returned x /\
    (forall t, (await x t).1 = Returned v).
Proof.
  destruct (reachable_invariant func ttl c Hreach) as [Hent _].
  pose proof Hfresh as [Hc _]%freshEntry_Some.
  destruct (Hent _ _ Hc) as (v & Hv & i & args' & x & t & t' & Hi & Hk & Hf & Ha).
  exists v, i, args', x. split_and!; [|done| |done|].
  - by apply memoizedFunc_hit_direct with e.
  - by apply cacheKey_eq_jsonFormArgs.
  - intros t0. rewrite (await_outcome_any_time x t0 t). by rewrite Ha.
Qed.

(** ** The further properties at concrete inputs *)

Lemma batch_chunk_size_changes_no_result_witness :
  0 <= 3 /\ (length exampleOps <= 4)%nat /\
  ((exists st, batchPromiseAllSettledInNode 4 0 exampleOps 3 = Some (Completed st)) <->
   3 = 0 \/ subscribedInTime 0 (Z.to_nat 3) exampleOps = true).
Proof.
  split; [lia|]. split; [simpl; lia|].
  apply (batch_chunk_size_changes_no_result 4 0 exampleOps 3); [lia | simpl; lia].
Defined.

Lemma batch_chunk_one_is_one_at_a_time_witness :
  (length earlyRejection <= 2)%nat /\
  exists e,
    batchPromiseAllSettledInNode 2 0 earlyRejection 1 = Some e /\
    windowsBegun e `prefix_of` map (fun p => [p]) earlyRejection /\
    sequentialFrom 0 (completedWaits e).
Proof.
  split; [simpl; lia|].
  destruct (batch_chunk_one_is_one_at_a_time 2 0 earlyRejection)
    as (e & He & Hpre & Hseq & _); [simpl; lia|].
  exists e. split; [exact He|]. split; [exact Hpre | exact Hseq].
Defined.

Lemma batch_number_of_waits_witness :
  0 < 3 /\ (length exampleOps <= 4)%nat /\
  exists e,
    batchPromiseAllSettledInNode 4 0 exampleOps 3 = Some e /\
    Z.of_nat (length (windowsBegun e)) <= 2.
Proof.
  split; [lia|]. split; [simpl; lia|].
  destruct (batch_number_of_waits 4 0 exampleOps 3) as (e & He & Hn & _);
    [lia | simpl; lia |].
  exists e. split; [exact He | exact Hn].
Defined.

Lemma batch_negative_chunk_never_completes_witness :
  -2 < 0 /\ exampleOps <> [] /\ batchResult 50 0 exampleOps (-2) = None.
Proof.
  split; [lia|]. split; [discriminate|].
  apply (batch_negative_chunk_never_completes 0 exampleOps (-2)); [lia | discriminate].
Defined.

Lemma deleteCache_then_call_witness :
  let e := {| timestamp := 0; value := Direct (JNum (Int 7 I)) |} in
  let w := {| cache := {[ cacheKey urlArgs := e ]}; now := 10; calls := [] |} in
  cacheKey [] <> cacheKey urlArgs /\
  memoizedFunc countingFunc (Some 1) (deleteCache w []) urlArgs =
    (deleteCache (memoizedFunc countingFunc (Some 1) w urlArgs).1 [],
     (memoizedFunc countingFunc (Some 1) w urlArgs).2).
Proof.
  intros e w.
  assert (cacheKey [] <> cacheKey urlArgs) as Hne by (vm_compute; discriminate).
  split; [exact Hne|].
  exact (proj2 (deleteCache_then_call countingFunc (Some 1) w [] urlArgs Hne)).
Defined.

Lemma timestamps_not_in_future_witness :
  let c := ((memoizedFunc flakyFunc None
               (memoizedFunc flakyFunc None (asyncCache 0) urlArgs).1 urlArgs).1,
            @nil (string * maybePromise)) in
  reachable flakyFunc None c /\
  forall key e, cache c.1 !! key = Some e -> 0 <= now c.1 - timestamp e.
Proof.
  intros c.
  assert (reachable flakyFunc None c) as Hreach.
  { apply reachable_memoizedFunc, reachable_memoizedFunc, reachable_init. }
  split; [exact Hreach|].
  exact (timestamps_not_in_future flakyFunc None c Hreach).
Defined.

Lemma negative_ttl_never_hits_witness :
  let c := ((memoizedFunc countingFunc (Some (-1)) (asyncCache 0) urlArgs).1,
            @nil (string * maybePromise)) in
  -1 < 0 /\ reachable countingFunc (Some (-1)) c /\
  freshEntry (Some (-1)) c.1 urlArgs = None.
Proof.
  intros c.
  assert (reachable countingFunc (Some (-1)) c) as Hreach.
  { apply reachable_memoizedFunc, reachable_init. }
  split; [lia|]. split; [exact Hreach|].
  refine (proj1 (negative_ttl_never_hits countingFunc (-1) c urlArgs _ Hreach)). lia.
Defined.

Lemma overlapping_calls_each_invoke_witness :
  freshEntry (Some 5) (asyncCache 0) urlArgs = None /\
  calls (startedCalls flakyFunc (Some 5) 3 (asyncCache 0) urlArgs)
  = calls (asyncCache 0) ++ replicate 3 urlArgs.
Proof.
  assert (freshEntry (Some 5) (asyncCache 0) urlArgs = None) as Hmiss
    by (vm_compute; reflexivity).
  split; [exact Hmiss|].
  exact (proj1 (overlapping_calls_each_invoke flakyFunc (Some 5) 3 (asyncCache 0)
                  urlArgs Hmiss)).
Defined.

Lemma cacheKey_injective_on_json_data_witness :
  forallb jsonData argsAB = true /\ forallb jsonData argsBA = true /\
  (cacheKey argsAB = cacheKey argsBA <-> argsAB = argsBA).
Proof.
  assert (forallb jsonData argsAB = true) as H1 by reflexivity.
  assert (forallb jsonData argsBA = true) as H2 by reflexivity.
  split; [exact H1|]. split; [exact H2|].
  exact (cacheKey_injective_on_json_data argsAB argsBA H1 H2).
Defined.

Lemma hit_serves_result_of_same_arguments_witness :
  let c := ((memoizedFunc countingFunc None (asyncCache 0) urlArgs).1,
            @nil (string * maybePromise)) in
  let e := {| timestamp := 0; value := Direct (JNum (Int 0 I)) |} in
  reachable countingFunc None c /\
  freshEntry None c.1 urlArgs = Some e /\
  exists v i args' x,
    memoizedFunc countingFunc None c.1 urlArgs = (c.1, Returned v) /\
    calls c.1 !! i = Some args' /\
    jsonFormArgs args' = jsonFormArgs urlArgs /\
    countingFunc i args' = Returned x /\
    (forall t, (await x t).1 = Returned v).
Proof.
  intros c e.
  assert (reachable countingFunc None c) as Hreach.
  { apply reachable_memoizedFunc, reachable_init. }
  assert (freshEntry None c.1 urlArgs = Some e) as Hfresh by (vm_compute; reflexivity).
  split; [exact Hreach|]. split; [exact Hfresh|].
  exact (hit_serves_result_of_same_arguments countingFunc None c urlArgs e Hreach Hfresh).
Defined.

(** * Properties of [src/functional.ts] *)

Lemma applyNext_threw {T : Type} (funcs : list (T -> outcome T)) e :
  foldl applyNext (Threw e) funcs = Threw e.
Proof. induction funcs as [|f funcs IH]; [done | exact IH]. Qed.

Lemma pipe_app {T : Type} (fs gs : list (T -> outcome T)) x :
  pipe (fs ++ gs) x = foldl applyNext (pipe fs x) gs.
Proof. unfold pipe. by rewrite foldl_app. Qed.

Lemma awaitEach_pipe {T : Type} (funcs : list (T -> outcome T)) x :
  awaitEach funcs x = pipe funcs x.
Proof.
  unfold pipe. revert x. induction funcs as [|f funcs IH]; intros x; [done|].
  simpl. destruct (f x) as [r|e]; [apply IH | by rewrite applyNext_threw].
Qed.

Lemma compose_pipe_reverse {T : Type} (funcs : list (T -> outcome T)) x :
  compose funcs x = pipe (reverse funcs) x.
Proof.
  induction funcs as [|f funcs IH]; [done|].
  rewrite reverse_cons, pipe_app. simpl. unfold compose in *. simpl. by rewrite IH.
Qed.

(** X14.  [pipe] applies the functions from the first to the last: piping
    no function returns the argument, and piping [f] and then [fs] applies [f]
    and pipes its result through [fs].  [compose] applies them from the last
    to the first: composing [fs] and then [f] applies [f] first and passes its
    result to the composition of [fs].  In both, an exception thrown by a
    function is the outcome of the whole chain and the remaining functions are
    not applied.  Hence composing a list is piping the reversed list, and a
    chain made of two lists is the chain of the second after the chain of the
    first (for [compose], of the first after the second). *)
Theorem compose_and_pipe {T : Type} (f : T -> outcome T) (fs gs : list (T -> outcome T)) x :
  pipe [] x = Returned x /\
  pipe (f :: fs) x =
    match f x with Returned y => pipe fs y | Threw e => Threw e end /\
  compose (fs ++ [f]) x =
    match f x with Returned y => compose fs y | Threw e => Threw e end /\
  compose fs x = pipe (reverse fs) x /\
  pipe (fs ++ gs) x =
    match pipe fs x with Returned y => pipe gs y | Threw e => Threw e end /\
  compose (fs ++ gs) x =
    match compose gs x with Returned y => compose fs y | Threw e => Threw e end.
Proof.
  assert (forall (hs : list (T -> outcome T)) o,
            foldl applyNext o hs =
            match o with Returned y => pipe hs y | Threw e => Threw e end) as Hfold.
  { intros hs [y|e]; [done | apply applyNext_threw]. }
  assert (forall hs ks : list (T -> outcome T),
            compose (hs ++ ks) x =
            match compose ks x with Returned y => compose hs y | Threw e => Threw e end)
    as Happ.
  { intros hs ks. rewrite !compose_pipe_reverse, reverse_app, pipe_app, Hfold.
    destruct (pipe (reverse ks) x) as [y|e]; [|done].
    by rewrite compose_pipe_reverse. }
  split_and!.
  - done.
  - unfold pipe at 1. cbn [foldl applyNext]. apply Hfold.
  - rewrite Happ. done.
  - apply compose_pipe_reverse.
  - by rewrite pipe_app, Hfold.
  - apply Happ.
Qed.

(** X15.  [pipeAsync] awaits the functions one after the other, each on the
    value the previous one resolved to, so it ends as [pipe] does on the same
    functions; when one of them rejects, the call rejects with that reason
    and the outcome is the same whatever functions come after it. *)
Theorem pipeAsync_chain {T : Type} (fs gs : list (T -> outcome T)) f x :
  pipeAsync fs x = pipe fs x /\
  pipeAsync (fs ++ gs) x =
    match pipeAsync fs x with Returned y => pipeAsync gs y | Threw e => Threw e end /\
  (forall y e, pipeAsync fs x = Returned y -> f y = Threw e ->
               pipeAsync (fs ++ f :: gs) x = Threw e).
Proof.
  unfold pipeAsync. rewrite !awaitEach_pipe.
  assert (pipe (fs ++ gs) x =
          match pipe fs x with Returned y => pipe gs y | Threw e => Threw e end) as Happ.
  { rewrite pipe_app. destruct (pipe fs x); [done | apply applyNext_threw]. }
  split_and!; [done| |].
  - rewrite Happ. destruct (pipe fs x); [symmetry; apply awaitEach_pipe | done].
  - intros y e Hy Hf. rewrite pipe_app, Hy. simpl.
    rewrite Hf. apply applyNext_threw.
Qed.

(** X16.  The function returned by [composeAsync] reverses its captured array
    in place at every call.  Over successive calls it therefore alternates:
    the first, third, ... call applies the functions from the last to the
    first (as [compose] does), the second, fourth, ... call applies them from
    the first to the last (as [pipe] does). *)
Theorem composeAsync_alternates {T : Type} (funcs : list (T -> outcome T)) args k a
    (Hk : args !! k = Some a) :
  composeAsyncCalls funcs args !! k =
  Some (if Nat.even k then compose funcs a else pipe funcs a).
Proof.
  revert funcs k Hk. induction args as [|a0 args IH]; intros funcs k Hk; [done|].
  destruct k as [|k].
  - simpl in *. injection Hk as ->. by rewrite awaitEach_pipe, compose_pipe_reverse.
  - change (args !! k = Some a) in Hk.
    change (composeAsyncCalls (reverse funcs) args !! k
            = Some (if Nat.even (S k) then compose funcs a else pipe funcs a)).
    rewrite (IH (reverse funcs) k Hk).
    rewrite compose_pipe_reverse, reverse_involutive, <- compose_pipe_reverse.
    rewrite Nat.even_succ, <- Nat.negb_even. by destruct (Nat.even k).
Qed.

Lemma onceCalls_called func st argss :
  called st = true ->
  onceCalls func st argss = (st, map (fun _ => Returned (result st)) argss).
Proof.
  intros Hc. induction argss as [|args argss IH]; [done|].
  simpl. unfold onceCall. rewrite Hc. simpl. by rewrite IH.
Qed.

(** X17.  The function returned by [once(func)] invokes [func] on the first
    call only, with the arguments of that call.  When that invocation returns
    [v], the first call returns [v] and every later call returns [v] again,
    whatever its arguments. *)
Theorem once_invokes_first_call_only func args0 v rest
    (Hfirst : func args0 = Returned v) :
  invoked (onceCalls func onceInit (args0 :: rest)).1 = [args0] /\
  (onceCalls func onceInit (args0 :: rest)).2 =
    Returned v :: map (fun _ => Returned v) rest.
Proof.
  simpl. unfold onceCall. simpl. rewrite Hfirst.
  by rewrite onceCalls_called.
Qed.

(** X18.  [called] is set before [func] runs.  When the first invocation
    throws, the first call throws, and [func] is never tried again: every
    later call returns [undefined]. *)
Theorem once_throwing_first_call_is_final func args0 e rest
    (Hfirst : func args0 = Threw e) :
  invoked (onceCalls func onceInit (args0 :: rest)).1 = [args0] /\
  (onceCalls func onceInit (args0 :: rest)).2 =
    Threw e :: map (fun _ => Returned JUndefined) rest.
Proof.
  simpl. unfold onceCall. simpl. rewrite Hfirst.
  by rewrite onceCalls_called.
Qed.

Lemma curriedCalls_holding {R : Type} n (fn : list jsval -> R) groups args :
  (length (args ++ concat groups) < n)%nat ->
  curriedCalls n fn (Holding args) groups = Some (Holding (args ++ concat groups)).
Proof.
  revert args. induction groups as [|g groups IH]; intros args Hlen; simpl.
  - by rewrite app_nil_r.
  - simpl in Hlen. rewrite app_assoc in Hlen.
    unfold curry. destruct (Nat.leb_spec n (length (args ++ g))) as [Hle|_].
    { rewrite length_app in Hlen. lia. }
    rewrite IH by done. by rewrite <- app_assoc.
Qed.

Lemma curriedCalls_app {R : Type} n (fn : list jsval -> R) c gs hs :
  curriedCalls n fn c (gs ++ hs) =
  match curriedCalls n fn c gs with
  | Some c' => curriedCalls n fn c' hs
  | None => None
  end.
Proof.
  revert c. induction gs as [|g gs IH]; intros c; [done|].
  simpl. destruct c as [r|args]; [done | apply IH].
Qed.

(** X19.  However the arguments are split over successive calls, [curry]
    applies [fn] exactly when the number of arguments supplied first reaches
    [fn.length], to all the arguments supplied so far, in order (those of the
    last call in excess included); until then every call returns a function
    that holds the arguments supplied so far. *)
Theorem curry_collects_arguments {R : Type} n (fn : list jsval -> R) args0 groups
    (Hfew : (length (args0 ++ concat groups) < n)%nat) :
  curriedCalls n fn (curry n fn args0) groups =
    Some (Holding (args0 ++ concat groups)) /\
  (forall last, (n <= length (args0 ++ concat groups ++ last))%nat ->
     curriedCalls n fn (curry n fn args0) (groups ++ [last]) =
       Some (Applied (fn (args0 ++ concat groups ++ last)))).
Proof.
  assert (curry n fn args0 = Holding args0) as ->.
  { unfold curry. destruct (Nat.leb_spec n (length args0)) as [Hle|_]; [|done].
    rewrite length_app in Hfew. lia. }
  split; [by apply curriedCalls_holding|].
  intros last Hlast. rewrite curriedCalls_app, curriedCalls_holding by done.
  simpl. unfold curry. rewrite <- app_assoc.
  by destruct (Nat.leb_spec n (length (args0 ++ concat groups ++ last))) as [_|Hlt];
    [|lia].
Qed.

(** * Properties of [src/data-manipulation.ts] *)

(** ** [removeDuplicatesFromArray] *)

(** The loop keeps, in order, the items whose key was not met before. *)
Lemma removeDuplicates_firstByKey seen result array :
  foldl rememberItem (seen, result) array =
  (seen ++ map itemKey (firstByKey seen array), result ++ firstByKey seen array).
Proof.
  revert seen result. induction array as [|item array IH]; intros seen result.
  - simpl. by rewrite !app_nil_r.
  - simpl. unfold rememberItem at 2. simpl.
    destruct (bool_decide (itemKey item ∈ seen)); rewrite IH; [done|].
    simpl. by rewrite <- !app_assoc.
Qed.

Lemma firstByKey_sublist seen array : firstByKey seen array `sublist_of` array.
Proof.
  revert seen. induction array as [|item array IH]; intros seen; simpl.
  - constructor.
  - destruct (bool_decide (itemKey item ∈ seen)); by constructor.
Qed.

Lemma firstByKey_NoDup seen array :
  NoDup seen -> NoDup (seen ++ map itemKey (firstByKey seen array)).
Proof.
  revert seen. induction array as [|item array IH]; intros seen Hnd; simpl.
  - by rewrite app_nil_r.
  - destruct (bool_decide_reflect (itemKey item ∈ seen)) as [Hin|Hnin]; [by apply IH|].
    simpl. rewrite cons_middle, app_assoc. apply IH.
    apply NoDup_app. split_and!; [done| |apply NoDup_singleton].
    intros x Hx ->%list_elem_of_singleton. done.
Qed.

Lemma firstByKey_covers seen array item :
  item ∈ array -> itemKey item ∈ seen ++ map itemKey (firstByKey seen array).
Proof.
  revert seen. induction array as [|x array IH]; intros seen Hin.
  - by apply not_elem_of_nil in Hin.
  - simpl. apply elem_of_cons in Hin as [->|Hin].
    + destruct (bool_decide_reflect (itemKey x ∈ seen)) as [Hs|Hs].
      * apply elem_of_app. by left.
      * simpl. apply elem_of_app. right. by left.
    + destruct (bool_decide_reflect (itemKey x ∈ seen)) as [Hs|Hs]; [by apply IH|].
      simpl. rewrite cons_middle, app_assoc. by apply IH.
Qed.

Lemma firstByKey_distinct seen array :
  NoDup (seen ++ map itemKey array) -> firstByKey seen array = array.
Proof.
  revert seen. induction array as [|x array IH]; intros seen Hnd; [done|].
  simpl in *. apply NoDup_app in Hnd as (Hs & Hdis & Hl).
  apply NoDup_cons in Hl as [Hx Hl].
  destruct (bool_decide_reflect (itemKey x ∈ seen)) as [Hin|Hnin].
  { exfalso. apply (Hdis _ Hin). by left. }
  f_equal. apply IH. apply NoDup_app. split_and!; [|  |done].
  - apply NoDup_app. split_and!; [done| |apply NoDup_singleton].
    intros y Hy ->%list_elem_of_singleton. done.
  - intros y [Hy| ->%list_elem_of_singleton]%elem_of_app Hy'; [|done].
    apply (Hdis _ Hy). by right.
Qed.

(** X20.  [removeDuplicatesFromArray] returns a selection of the items of the
    array in their order; no two returned items have the same JSON key; every
    item of the array has its key among those of the returned items; and
    running it on its own result changes nothing. *)
Theorem removeDuplicates_selects_first_of_each_key array :
  removeDuplicatesFromArray array `sublist_of` array /\
  NoDup (map itemKey (removeDuplicatesFromArray array)) /\
  (forall item, item ∈ array ->
     itemKey item ∈ map itemKey (removeDuplicatesFromArray array)) /\
  removeDuplicatesFromArray (removeDuplicatesFromArray array)
    = removeDuplicatesFromArray array.
Proof.
  unfold removeDuplicatesFromArray. rewrite !removeDuplicates_firstByKey. simpl.
  pose proof (firstByKey_NoDup [] array (NoDup_nil_2)) as Hnd. simpl in Hnd.
  split_and!.
  - apply firstByKey_sublist.
  - done.
  - intros item Hin. by apply (firstByKey_covers [] array).
  - by apply firstByKey_distinct.
Qed.

Lemma serializeJSON_data_inj v v' :
  jsonData v = true -> jsonData v' = true ->
  serializeJSON v = serializeJSON v' -> v = v'.
Proof.
  intros D D' Heq.
  rewrite (jsonData_serializeJSON v D), (jsonData_serializeJSON v' D') in Heq.
  injection Heq as Heq.
  assert (serializeItem v +:+ "" = serializeItem v' +:+ "") as Heq'
    by (by rewrite !string_app_nil_r).
  by destruct (serializeItem_readsOneWay v v' "" "" D D' I I Heq').
Qed.

(** X21.  On JSON data nothing is merged by mistake: when every item of the
    array is a value in which no [undefined], [NaN], infinity or [-0] occurs,
    each value that occurs in the array occurs in the result, and occurs there
    once. *)
Theorem removeDuplicates_keeps_every_distinct_value values v
    (Hdata : Forall (fun x => jsonData x = true) values) (Hin : v ∈ values) :
  EValue v ∈ removeDuplicatesFromArray (map EValue values) /\
  NoDup (removeDuplicatesFromArray (map EValue values)).
Proof.
  unfold removeDuplicatesFromArray. rewrite !removeDuplicates_firstByKey. simpl.
  pose proof (firstByKey_NoDup [] (map EValue values) (NoDup_nil_2)) as Hnd.
  pose proof (firstByKey_sublist [] (map EValue values)) as Hsub.
  simpl in Hnd. split.
  - assert (EValue v ∈ map EValue values) as Hin' by (by apply list_elem_of_fmap_2).
    pose proof (firstByKey_covers [] _ _ Hin') as Hkey. simpl in Hkey.
    apply list_elem_of_fmap in Hkey as (item & Hk & Hitem).
    assert (item ∈ map EValue values) as Hitem'.
    { by apply (elem_of_sublist _ _ _ Hitem). }
    apply list_elem_of_fmap in Hitem' as (v' & -> & Hv').
    rewrite Forall_forall in Hdata.
    unfold itemKey in Hk. simpl in Hk.
    by rewrite (serializeJSON_data_inj v v' (Hdata _ Hin) (Hdata _ Hv') Hk).
  - by apply NoDup_fmap_1 in Hnd.
Qed.


(** ** Objects as property lists: [buildOptionalObject], [pickKeys],
    [removeKeys], [merge] *)

Lemma ownProperty_None k props : k ∉ map fst props -> ownProperty k props = None.
Proof.
  induction props as [|[k' v] props IH]; intros Hk; [done|]. simpl in *.
  destruct (String.eqb_spec k k') as [->|Hne].
  - exfalso. apply Hk. by left.
  - apply IH. intros Hin. apply Hk. by right.
Qed.

Lemma setProperty_fresh k v props :
  k ∉ map fst props -> setProperty k v props = props ++ [(k, v)].
Proof.
  induction props as [|[k' v'] props IH]; intros Hk; [done|]. simpl in *.
  destruct (String.eqb_spec k k') as [->|Hne].
  - exfalso. apply Hk. by left.
  - f_equal. apply IH. intros Hin. apply Hk. by right.
Qed.

Lemma ownProperty_setProperty k k' v props :
  ownProperty k (setProperty k' v props) =
  if String.eqb k k' then Some v else ownProperty k props.
Proof.
  induction props as [|[k0 v0] props IH]; simpl.
  - by destruct (String.eqb k k').
  - destruct (String.eqb_spec k' k0) as [->|Hne]; simpl.
    + by destruct (String.eqb k k0).
    + destruct (String.eqb_spec k k0) as [->|Hne'].
      * destruct (String.eqb_spec k0 k') as [->|_]; done.
      * exact IH.
Qed.

Lemma NoDup_keys_filter (P : string * jsval -> Prop) `{forall x, Decision (P x)} props :
  NoDup (map fst props) -> NoDup (map fst (filter P props)).
Proof.
  intros Hnd. eapply sublist_NoDup; [exact Hnd|].
  apply (fmap_sublist fst), sublist_filter.
Qed.

(** Assigning entries with new, distinct names appends them, except for a
    [__proto__] entry, which adds nothing. *)
Lemma foldl_assignProperty_fresh acc entries :
  NoDup (map fst (acc ++ entries)) ->
  foldl (fun obj entry =>
           if isDefined (snd entry) then assignProperty (fst entry) (snd entry) obj
           else obj)
    acc entries
  = acc ++ filter (fun entry => isDefined (snd entry)
                                && negb (String.eqb (fst entry) "__proto__")) entries.
Proof.
  revert acc. induction entries as [|[k v] entries IH]; intros acc Hnd.
  - simpl. by rewrite app_nil_r.
  - assert (k ∉ map fst acc) as Hk.
    { rewrite map_app in Hnd. simpl in Hnd.
      apply NoDup_app in Hnd as (_ & Hdis & _). intros Hin.
      apply (Hdis _ Hin). by left. }
    assert (NoDup (map fst (acc ++ entries))) as Hrest.
    { rewrite map_app in *. simpl in Hnd.
      apply NoDup_app in Hnd as (H1 & H2 & H3). apply NoDup_cons in H3 as [_ H3].
      apply NoDup_app. split_and!; [done| |done].
      intros x Hx Hx'. apply (H2 x Hx). by right. }
    cbn [foldl fst snd]. unfold assignProperty.
    destruct (isDefined v && negb (String.eqb k "__proto__")) eqn:Hkeep.
    + rewrite filter_cons_True by (by apply Is_true_true_2).
      apply andb_true_iff in Hkeep as [-> Hp]. apply negb_true_iff in Hp as ->.
      rewrite setProperty_fresh by done.
      rewrite IH; [by rewrite <- app_assoc|].
      by rewrite <- app_assoc.
    + rewrite filter_cons_False by (intros Hc%Is_true_true_1; simpl in Hc; congruence).
      replace (if isDefined v then if String.eqb k "__proto__" then acc
                                   else setProperty k v acc else acc) with acc
        by (by destruct (isDefined v), (String.eqb k "__proto__")).
      by apply IH.
Qed.

Lemma serializeJSON_drop_undefined fields :
  serializeJSON (JObj (filter (fun entry => isDefined (snd entry)) fields)) =
  serializeJSON (JObj fields).
Proof.
  set (member := fun p : string * jsval =>
         match serializeJSON (snd p) with
         | Some str => Some (quoteJSONString (fst p) +:+ ":" +:+ str)
         | None => None
         end).
  change (Some ("{" +:+ joinWith ","
                  (omap member (filter (fun entry => isDefined (snd entry)) fields))
                +:+ "}")
          = Some ("{" +:+ joinWith "," (omap member fields) +:+ "}")).
  assert (omap member (filter (fun entry => isDefined (snd entry)) fields)
          = omap member fields) as ->; [|done].
  induction fields as [|[k v] fields IH]; [done|].
  destruct (isDefined v) eqn:Hv.
  - rewrite filter_cons_True by (by apply Is_true_true_2).
    rewrite !omap_cons_step. by rewrite IH.
  - rewrite filter_cons_False by (intros Hc%Is_true_true_1; simpl in Hc; congruence).
    rewrite omap_cons_step. by destruct v.
Qed.

Lemma filter_no_proto (fields : list (string * jsval)) :
  "__proto__" ∉ map fst fields ->
  filter (fun entry => isDefined (snd entry)
                       && negb (String.eqb (fst entry) "__proto__")) fields
  = filter (fun entry => isDefined (snd entry)) fields.
Proof.
  induction fields as [|[k v] fields IH]; intros Hno; [done|].
  simpl in Hno. apply not_elem_of_cons in Hno as [Hk Hno].
  assert (String.eqb k "__proto__" = false) as Hkb.
  { apply String.eqb_neq. congruence. }
  destruct (isDefined v) eqn:Hv.
  - rewrite !filter_cons_True; [by rewrite IH | by apply Is_true_true_2 |].
    apply Is_true_true_2. simpl. by rewrite Hv, Hkb.
  - rewrite !filter_cons_False; [by apply IH | |];
      intros Hc%Is_true_true_1; simpl in Hc; rewrite Hv in Hc; done.
Qed.

(** X22.  Of the fields of an object (each name once),
    [buildOptionalObject] keeps as own properties, in their order, exactly
    those whose value is not [undefined] and whose name is not [__proto__] (an
    assignment to [__proto__] adds no property); applying it again changes
    nothing; and when the object has no field named [__proto__],
    [JSON.stringify] writes the result as it writes the object. *)
Theorem buildOptionalObject_drops_undefined fields
    (Hobj : NoDup (map fst fields)) :
  buildOptionalObject fields =
    filter (fun entry => isDefined (snd entry)
                         && negb (String.eqb (fst entry) "__proto__")) fields /\
  Forall (fun entry => isDefined (snd entry) = true /\ fst entry <> "__proto__")
    (buildOptionalObject fields) /\
  buildOptionalObject (buildOptionalObject fields) = buildOptionalObject fields /\
  ("__proto__" ∉ map fst fields ->
   serializeJSON (JObj (buildOptionalObject fields)) = serializeJSON (JObj fields)).
Proof.
  assert (forall l, NoDup (map fst l) ->
            buildOptionalObject l =
            filter (fun entry => isDefined (snd entry)
                                 && negb (String.eqb (fst entry) "__proto__")) l) as Hb.
  { intros l Hl. unfold buildOptionalObject.
    by rewrite (foldl_assignProperty_fresh [] l). }
  rewrite (Hb fields Hobj), Hb by (by apply NoDup_keys_filter).
  split_and!; [done| | |].
  - apply Forall_forall. intros entry [Hd _]%list_elem_of_filter.
    apply Is_true_true_1, andb_true_iff in Hd as [Hd Hp].
    split; [done|]. apply negb_true_iff in Hp. by apply String.eqb_neq.
  - by apply list_filter_filter_l.
  - intros Hno. rewrite filter_no_proto by done. apply serializeJSON_drop_undefined.
Qed.








Lemma spread_lookup acc mixin k :
  NoDup (map fst mixin) ->
  ownProperty k (spread acc mixin) =
  match ownProperty k mixin with
  | Some v => Some v
  | None => ownProperty k acc
  end.
Proof.
  unfold spread. revert acc. induction mixin as [|[k1 v1] mixin IH]; intros acc Hnd;
    [done|].
  simpl in Hnd. apply NoDup_cons in Hnd as [Hk1 Hnd].
  cbn [foldl fst snd]. rewrite IH by done. rewrite ownProperty_setProperty. simpl.
  destruct (String.eqb_spec k k1) as [->|Hne]; [|done].
  by rewrite ownProperty_None.
Qed.

(** X24.  [merge] never loses a property, and a later mixin overrides an
    earlier one and the object: the value of a property in the merged object
    is the one given by the last mixin that has the property, or the object's
    own when no mixin has it.  Merging nothing returns the object. *)
Theorem merge_last_mixin_wins clonedObj mixins k
    (Hmixins : Forall (fun mixin => NoDup (map fst mixin)) mixins) :
  ownProperty k (merge clonedObj mixins) =
    lastValue k (ownProperty k clonedObj) mixins /\
  (is_Some (ownProperty k clonedObj) ->
   is_Some (ownProperty k (merge clonedObj mixins))) /\
  merge clonedObj [] = clonedObj.
Proof.
  assert (ownProperty k (merge clonedObj mixins) =
          lastValue k (ownProperty k clonedObj) mixins) as Hlookup.
  { unfold merge, lastValue. revert clonedObj.
    induction Hmixins as [|mixin mixins Hm _ IH]; intros clonedObj; [done|].
    cbn [foldl]. rewrite IH. by rewrite spread_lookup. }
  split_and!; [done| |done].
  rewrite Hlookup. generalize (ownProperty k clonedObj). clear.
  unfold lastValue. induction mixins as [|mixin mixins IH]; intros start Hs; [done|].
  cbn [foldl]. apply IH. by destruct (ownProperty k mixin).
Qed.

(** ** The documented examples of [functional.ts] and [data-manipulation.ts] *)

Example compose_documented :
  compose [addOne; double; subtractThree] 5 = Returned 5 /\
  pipe [addOne; double; subtractThree] 5 = Returned 9.
Proof. split; reflexivity. Qed.

Example composeAsync_second_call_runs_forwards :
  composeAsyncCalls [addOne; double; subtractThree] [5; 5] = [Returned 5; Returned 9].
Proof. reflexivity. Qed.

Example curry_documented :
  curriedCalls 3 add (curry 3 add [])
    [[JNum (Int 2 I); JNum (Int 3 I)]; [JNum (Int 5 I)]] = Some (Applied 10) /\
  curriedCalls 3 add (curry 3 add [])
    [[JNum (Int 1 I)]; [JNum (Int 2 I)]; [JNum (Int 3 I)]] = Some (Applied 6).
Proof. split; reflexivity. Qed.

(** A key inherited from [Object.prototype] takes [pickKeys] out of the
    embedding; a key the object lacks is skipped; a [__proto__] field adds no
    property in [buildOptionalObject]. *)
Example pickKeys_inherited_name :
  pickKeys person ["name"; "toString"] = None /\
  pickKeys person ["name"; "height"] = Some [("name", JStr "Alice")] /\
  buildOptionalObject [("__proto__", JNull); ("a", JNum (Int 1 I)); ("b", JUndefined)]
    = [("a", JNum (Int 1 I))].
Proof. split_and!; reflexivity. Qed.

Example removeKeys_documented :
  removeKeys person ["city"; "city"] = [("name", JStr "Alice"); ("age", JNum (Int 30 I))] /\
  merge person [[("country", JStr "USA")]] = person ++ [("country", JStr "USA")].
Proof. split; reflexivity. Qed.

(** A [Set] and an array with the same members have the same key, so the
    later of the two is removed as a duplicate. *)
(** Outside JSON data items are merged: [NaN] is taken for [null] and [-0]
    for [0]. *)
Example removeDuplicates_merges_NaN_and_null :
  removeDuplicatesFromArray
    [EValue JNull; EValue (JNum NaN); EValue (JNum (Int 0 I)); EValue (JNum NegZero)]
  = [EValue JNull; EValue (JNum (Int 0 I))].
Proof. vm_compute. reflexivity. Qed.

Example removeDuplicates_set_and_array :
  removeDuplicatesFromArray
    [ESet [EValue (JNum (Int 1 I)); EValue (JNum (Int 2 I))];
     EValue (JArr [JNum (Int 1 I); JNum (Int 2 I)]);
     EValue (JNum (Int 1 I)); EValue (JNum (Int 1 I))]
  = [ESet [EValue (JNum (Int 1 I)); EValue (JNum (Int 2 I))]; EValue (JNum (Int 1 I))].
Proof. vm_compute. reflexivity. Qed.

(** ** The properties of the two files at concrete inputs *)

Lemma composeAsync_alternates_witness :
  [5; 5; 5] !! 1%nat = Some 5 /\
  composeAsyncCalls [addOne; double; subtractThree] [5; 5; 5] !! 1%nat =
  Some (if Nat.even 1 then compose [addOne; double; subtractThree] 5
        else pipe [addOne; double; subtractThree] 5).
Proof.
  assert ([5; 5; 5] !! 1%nat = Some 5) as Hk by reflexivity.
  split; [exact Hk|].
  exact (composeAsync_alternates [addOne; double; subtractThree] [5; 5; 5] 1 5 Hk).
Defined.

Lemma once_invokes_first_call_only_witness :
  firstArgument [JNum (Int 1 I)] = Returned (JNum (Int 1 I)) /\
  invoked (onceCalls firstArgument onceInit [[JNum (Int 1 I)]; [JNum (Int 2 I)]; []]).1
    = [[JNum (Int 1 I)]] /\
  (onceCalls firstArgument onceInit [[JNum (Int 1 I)]; [JNum (Int 2 I)]; []]).2 =
    Returned (JNum (Int 1 I)) :: map (fun _ => Returned (JNum (Int 1 I))) [[JNum (Int 2 I)]; []].
Proof.
  assert (firstArgument [JNum (Int 1 I)] = Returned (JNum (Int 1 I))) as Hfirst by reflexivity.
  split; [exact Hfirst|].
  exact (once_invokes_first_call_only firstArgument [JNum (Int 1 I)] (JNum (Int 1 I))
           [[JNum (Int 2 I)]; []] Hfirst).
Defined.

Lemma once_throwing_first_call_is_final_witness :
  firstArgument [] = Threw (JStr "no argument") /\
  invoked (onceCalls firstArgument onceInit [[]; [JNum (Int 2 I)]]).1 = [[]] /\
  (onceCalls firstArgument onceInit [[]; [JNum (Int 2 I)]]).2 =
    Threw (JStr "no argument") :: map (fun _ => Returned JUndefined) [[JNum (Int 2 I)]].
Proof.
  assert (firstArgument [] = Threw (JStr "no argument")) as Hfirst by reflexivity.
  split; [exact Hfirst|].
  exact (once_throwing_first_call_is_final firstArgument [] (JStr "no argument")
           [[JNum (Int 2 I)]] Hfirst).
Defined.

Lemma curry_collects_arguments_witness :
  (length ([JNum (Int 1 I)] ++ concat [[JNum (Int 2 I)]]) < 3)%nat /\
  curriedCalls 3 add (curry 3 add [JNum (Int 1 I)]) [[JNum (Int 2 I)]] =
    Some (Holding ([JNum (Int 1 I)] ++ concat [[JNum (Int 2 I)]])) /\
  curriedCalls 3 add (curry 3 add [JNum (Int 1 I)])
    ([[JNum (Int 2 I)]] ++ [[JNum (Int 3 I); JNum (Int 4 I)]]) =
    Some (Applied (add ([JNum (Int 1 I)] ++ concat [[JNum (Int 2 I)]]
                        ++ [JNum (Int 3 I); JNum (Int 4 I)]))).
Proof.
  assert (length ([JNum (Int 1 I)] ++ concat [[JNum (Int 2 I)]]) < 3)%nat as Hfew by (simpl; lia).
  split; [exact Hfew|].
  destruct (curry_collects_arguments 3 add [JNum (Int 1 I)] [[JNum (Int 2 I)]] Hfew) as [H1 H2].
  split; [exact H1|]. apply H2. simpl. lia.
Defined.

Lemma removeDuplicates_keeps_every_distinct_value_witness :
  let values := [JNum (Int 1 I); JStr "1"; JNum (Int 1 I); JArr [JNum (Int 1 I)]] in
  Forall (fun x => jsonData x = true) values /\ JStr "1" ∈ values /\
  EValue (JStr "1") ∈ removeDuplicatesFromArray (map EValue values).
Proof.
  intros values.
  assert (Forall (fun x => jsonData x = true) values) as Hdata
    by (repeat constructor).
  assert (JStr "1" ∈ values) as Hin by (right; left).
  split; [exact Hdata|]. split; [exact Hin|].
  exact (proj1 (removeDuplicates_keeps_every_distinct_value values (JStr "1") Hdata Hin)).
Defined.

Lemma buildOptionalObject_drops_undefined_witness :
  let fields := [("name", JStr "Alice"); ("age", JUndefined); ("city", JNull)] in
  NoDup (map fst fields) /\
  buildOptionalObject fields = [("name", JStr "Alice"); ("city", JNull)].
Proof.
  intros fields.
  assert (NoDup (map fst fields)) as Hobj by (by apply (bool_decide_unpack _)).
  split; [exact Hobj|].
  rewrite (proj1 (buildOptionalObject_drops_undefined fields Hobj)). reflexivity.
Defined.


Lemma merge_last_mixin_wins_witness :
  let mixins := [[("city", JStr "Paris")]; [("city", JStr "Rome"); ("zip", JNum (Int 1 I))]] in
  Forall (fun mixin => NoDup (map fst mixin)) mixins /\
  ownProperty "city" (merge person mixins) = Some (JStr "Rome").
Proof.
  intros mixins.
  assert (Forall (fun mixin => NoDup (map fst mixin)) mixins) as Hm.
  { repeat constructor; by apply (bool_decide_unpack _). }
  split; [exact Hm|].
  rewrite (proj1 (merge_last_mixin_wins person mixins "city" Hm)). reflexivity.
Defined.
